(** * ClimateCoach dashboard controller (app/static/js/scripts.js)

    A shallow embedding of the browser-side controller: the location form
    and its validation, the toast queue with its timers, the chart range
    selector with its label and value generators, the stat animator and
    the [ClimateAPI] client, followed by the properties proved of them.

    Conventions of the embedding.
    - A finite JavaScript Number is a rational [Q], and every arithmetic
      operation of the source rounds its exact result with an operator
      [rnd : Q -> Q].  The properties are proved for every rounding that
      keeps the order and is exact on small half-integers;
      [Num.binary64], round to nearest with ties to even on the binary64
      grid, is one.  [NaN] and the infinities appear only where the
      source can produce them ([parseFloat]).
    - The DOM, the timer queue and the console are fields of one [World]
      record that every effectful function threads through.
    - A JavaScript object used as a dictionary is a [gmap string _]. *)

From Stdlib Require Import ZArith QArith Qabs Qround Qminmax Qpower Lqa Lia List String Ascii.
From stdpp Require Import gmap strings pretty.
Import ListNotations.

Open Scope Z_scope.

(** ** Numbers *)

Module Num.

(** The result of [parseFloat]: the only place of the source where a
    non-finite Number is produced. *)
Inductive number : Type :=
  | NaN
  | Infinity (negative : bool)
  | Finite (q : Q).

(** ToBoolean on a Number: [NaN], [+0] and [-0] are falsy. *)
Definition truthy (n : number) : bool :=
  match n with
  | NaN => false
  | Infinity _ => true
  | Finite q => negb (Qeq_bool q 0)
  end.

(** ToBoolean on a String: only the empty string is falsy. *)
Definition truthy_string (s : string) : bool :=
  match s with
  | EmptyString => false
  | String _ _ => true
  end.

Definition isNaN (n : number) : bool :=
  match n with NaN => true | _ => false end.

(** *** Rounding to binary64 *)

(** floor (log2 q), for a positive [q] *)
Definition ilog2 (q : Q) : Z :=
  if Qle_bool 1 q then Z.log2 (Qfloor q) else - Z.log2_up (Qceiling (/ q)).

(** Rounding to the nearest integer, to the even one on a tie. *)
Definition round_half_even (x : Q) : Z :=
  let f := Qfloor x in
  match (x - inject_Z f ?= 1 # 2)%Q with
  | Lt => f
  | Gt => f + 1
  | Eq => if Z.even f then f else f + 1
  end.

(** The exponent of the last place of a binary64 number of magnitude [q]:
    52 below the exponent of [q], and -1074 throughout the subnormals. *)
Definition ulp_exponent (q : Q) : Z := Z.max (ilog2 q) (-1022) - 52.

Definition round_magnitude (q : Q) : Q :=
  if Qeq_bool q 0 then 0%Q
  else
    let p := ulp_exponent q in
    Qred (inject_Z (round_half_even (q / 2 ^ p)) * 2 ^ p)%Q.

(** Round to nearest, ties to even, in binary64; the sign is kept apart,
    as the format does.  Overflow to an infinity is left to the caller. *)
Definition binary64 (q : Q) : Q :=
  if Qle_bool 0 q then round_magnitude q else (- round_magnitude (- q))%Q.

(** *** parseFloat

    The longest prefix of the trimmed input that is a StrDecimalLiteral:
    an optional sign, then [Infinity] or digits with an optional fraction
    and an optional exponent.  No such prefix gives [NaN]; the value of
    the literal is rounded to binary64, to an infinity from 2^1024 on. *)

Definition is_whitespace (c : ascii) : bool :=
  match nat_of_ascii c with
  | 9%nat | 10%nat | 11%nat | 12%nat | 13%nat | 32%nat => true
  | _ => false
  end.

Fixpoint trim_start (s : string) : string :=
  match s with
  | String c s' => if is_whitespace c then trim_start s' else s
  | EmptyString => s
  end.

Definition digit_of (c : ascii) : option Z :=
  let n := Z.of_nat (nat_of_ascii c) in
  if (48 <=? n) && (n <=? 57) then Some (n - 48) else None.

(** A maximal run of decimal digits: its value, its length, the rest. *)
Fixpoint read_digits (s : string) (acc : Z) (cnt : nat) : Z * nat * string :=
  match s with
  | String c s' =>
      match digit_of c with
      | Some d => read_digits s' (10 * acc + d) (S cnt)
      | None => (acc, cnt, s)
      end
  | EmptyString => (acc, cnt, s)
  end.

Definition read_sign (s : string) : bool * string :=
  match s with
  | String "-"%char s' => (true, s')
  | String "+"%char s' => (false, s')
  | _ => (false, s)
  end.

(** The exponent part is taken only when at least one digit follows. *)
Definition read_exponent (s : string) : Z :=
  match s with
  | String c s' =>
      if (Ascii.eqb c "e" || Ascii.eqb c "E")%bool then
        let '(neg, s'') := read_sign s' in
        let '(e, cnt, _) := read_digits s'' 0 0%nat in
        match cnt with
        | O => 0
        | S _ => if neg then - e else e
        end
      else 0
  | EmptyString => 0
  end.

Definition parseFloat (input : string) : number :=
  let '(neg, s) := read_sign (trim_start input) in
  if String.prefix "Infinity" s then Infinity neg
  else
    let '(ip, ni, s1) := read_digits s 0 0%nat in
    let '(fp, nf, s2) :=
      match s1 with
      | String "."%char s1' => read_digits s1' 0 0%nat
      | _ => (0, 0%nat, s1)
      end in
    match (ni + nf)%nat with
    | O => NaN
    | S _ =>
        let mantissa := (inject_Z (ip * 10 ^ Z.of_nat nf + fp) / inject_Z (10 ^ Z.of_nat nf))%Q in
        let magnitude := binary64 (mantissa * Qpower 10 (read_exponent s2))%Q in
        if Qle_bool (inject_Z (2 ^ 1024)) magnitude then Infinity neg
        else Finite (if neg then (- magnitude)%Q else magnitude)
    end.

(** *** Arithmetic with rounding *)

Section Rounded.

Variable rnd : Q -> Q.

Definition fadd (x y : Q) : Q := rnd (x + y).
Definition fsub (x y : Q) : Q := rnd (x - y).
Definition fmul (x y : Q) : Q := rnd (x * y).
Definition fdiv (x y : Q) : Q := rnd (x / y).

End Rounded.

Definition Qltb (x y : Q) : bool := negb (Qle_bool y x).

(** Number.prototype.toFixed(1), as the number its digits denote: the
    integer [n] with [n / 10] nearest to the magnitude of [x], the larger
    one on a tie, with the sign of [x].  ([toString], used for the final
    value of an animation, prints the shortest decimal that reads back as
    the same Number, and is identified with that Number.) *)
Definition toFixed1 (x : Q) : Q :=
  let n := Qfloor (Qabs x * 10 + (1 # 2)) in
  if Qle_bool 0 x then n # 10 else (- n) # 10.

End Num.

(** ** Dates

    A [Date] object holds a time value in milliseconds; the calendar
    accessors work on local time, so the time value used here is the local
    one.  Day numbers count from 1970-01-01; months are numbered from 0 as
    [getMonth] does. *)

Module Dates.

Definition msPerDay : Z := 86400000.

Definition Day (t : Z) : Z := t / msPerDay.
Definition TimeWithinDay (t : Z) : Z := t mod msPerDay.
Definition MakeDate (day time : Z) : Z := day * msPerDay + time.

Record civil : Type := { year : Z; month : Z; date : Z }.

(** Day number to calendar date, by 400-year eras that start on March 1. *)
Definition civil_from_days (z : Z) : civil :=
  let z := z + 719468 in
  let era := z / 146097 in
  let doe := z - era * 146097 in
  let yoe := (doe - doe / 1460 + doe / 36524 - doe / 146096) / 365 in
  let doy := doe - (365 * yoe + yoe / 4 - yoe / 100) in
  let mp := (5 * doy + 2) / 153 in
  let d := doy - (153 * mp + 2) / 5 + 1 in
  let m := if mp <? 10 then mp + 2 else mp - 10 in
  {| year := yoe + era * 400 + (if m <=? 1 then 1 else 0); month := m; date := d |}.

(** Calendar date to day number; [d] may lie outside the month, which
    carries into the neighbouring months. *)
Definition days_from_civil (y m d : Z) : Z :=
  let y := if m <=? 1 then y - 1 else y in
  let era := y / 400 in
  let yoe := y - era * 400 in
  let mp := if 1 <? m then m - 2 else m + 10 in
  let doy := (153 * mp + 2) / 5 + d - 1 in
  let doe := yoe * 365 + yoe / 4 - yoe / 100 + doy in
  era * 146097 + doe - 719468.

(** MakeDay of the language definition, for a month already in 0..11. *)
Definition MakeDay (y m dt : Z) : Z := days_from_civil y m 1 + dt - 1.

Definition getDate (t : Z) : Z := date (civil_from_days (Day t)).

Definition setDate (t dt : Z) : Z :=
  let c := civil_from_days (Day t) in
  MakeDate (MakeDay (year c) (month c) dt) (TimeWithinDay t).

Definition month_short (m : Z) : string :=
  nth (Z.to_nat m)
    ["Jan"; "Feb"; "Mar"; "Apr"; "May"; "Jun";
     "Jul"; "Aug"; "Sep"; "Oct"; "Nov"; "Dec"]%string ""%string.

(** The short month name and the day of the month of a day number. *)
Definition day_label (z : Z) : string :=
  let c := civil_from_days z in
  (month_short (month c) +:+ " " +:+ pretty (date c))%string.

(** toLocaleDateString('en-US', { month: 'short', day: 'numeric' }) *)
Definition toLocaleDateString (t : Z) : string := day_label (Day t).

End Dates.

(** ** The page: DOM state, timers and observable effects *)

Module Page.

(** A toast element as [showToast] builds it. *)
Record Toast : Type := {
  toast_id : nat;
  toast_class : string;
  toast_icon : string;
  toast_message : string
}.

(** The callbacks the source hands to [setTimeout]: the removal of a
    toast, the completion of a location submission, the completion of the
    dashboard load, and the success toast of a simulated action. *)
Inductive Callback : Type :=
  | RemoveToast (id : nat)
  | LocationAdded
  | DashboardLoaded
  | Announce (message type : string).

(** An error object: its constructor name and its message. *)
Record Error : Type := { error_name : string; error_message : string }.

(** A value of the request configuration: a string or a flat object. *)
Inductive Value : Type :=
  | Undefined
  | Str (s : string)
  | Obj (fields : gmap string string).

(** What the page does that an observer can see, in order. *)
Inductive Effect : Type :=
  | ToastShown (message type : string)
  | ModalHidden (element : string)
  | FormReset
  | ConsoleLog (message : string)
  | ConsoleError (message : string) (e : Error)
  | Fetch (url : string) (config : gmap string Value)
  | StatsAnimated.

(** The fields of the location form. *)
Record Form : Type := {
  location_name : string;
  location_address : string;
  latitude : string;
  longitude : string;
  property_type : string
}.

Record Style : Type := { visibility : string; opacity : string }.

Record World : Type := {
  now : Z;
  toast_container : list Toast;
  next_id : nat;
  timers : list (Z * Callback);
  location_modal : Style;
  location_form : Form;
  form_defaults : Form;
  trace : list Effect
}.

Definition emit (e : Effect) (w : World) : World :=
  {| now := now w; toast_container := toast_container w; next_id := next_id w;
     timers := timers w; location_modal := location_modal w;
     location_form := location_form w; form_defaults := form_defaults w;
     trace := trace w ++ [e] |}.

(** The timer queue is kept in firing order: earlier due time first, and
    among equal due times the one registered first. *)
Fixpoint enqueue (t : Z * Callback) (q : list (Z * Callback)) : list (Z * Callback) :=
  match q with
  | [] => [t]
  | u :: q' => if fst u <=? fst t then u :: enqueue t q' else t :: q
  end.

Definition setTimeout (cb : Callback) (delay : Z) (w : World) : World :=
  {| now := now w; toast_container := toast_container w; next_id := next_id w;
     timers := enqueue (now w + delay, cb) (timers w);
     location_modal := location_modal w;
     location_form := location_form w; form_defaults := form_defaults w;
     trace := trace w |}.

Definition set_container (c : list Toast) (w : World) : World :=
  {| now := now w; toast_container := c; next_id := next_id w;
     timers := timers w; location_modal := location_modal w;
     location_form := location_form w; form_defaults := form_defaults w;
     trace := trace w |}.

(** toast.parentElement: the toast is still a child of the container. *)
Definition attached (id : nat) (w : World) : bool :=
  existsb (fun t => Nat.eqb (toast_id t) id) (toast_container w).

(** toast.remove(): detaches the node; nothing happens when it is detached. *)
Definition remove_toast (id : nat) (w : World) : World :=
  set_container (List.filter (fun t => negb (Nat.eqb (toast_id t) id)) (toast_container w)) w.

Definition showToast (message type : string) (w : World) : World :=
  let icon :=
    if String.eqb type "success" then "check-circle"
    else if String.eqb type "error" then "exclamation-triangle"
    else "info-circle" in
  let toast :=
    {| toast_id := next_id w; toast_class := "toast toast-" +:+ type;
       toast_icon := icon; toast_message := message |} in
  let w1 :=
    {| now := now w; toast_container := toast_container w ++ [toast];
       next_id := S (next_id w); timers := timers w;
       location_modal := location_modal w;
       location_form := location_form w; form_defaults := form_defaults w;
       trace := trace w ++ [ToastShown message type] |} in
  setTimeout (RemoveToast (toast_id toast)) 5000 w1.

(** The close button of a toast: [this.parentElement.remove()], where
    [this.parentElement] is the toast the button belongs to. *)
Definition dismiss (id : nat) (w : World) : World := remove_toast id w.

(** [hideModal] and [showModal] on the location modal, the one modal the
    flows modelled here show or hide. *)
Definition hideModal (w : World) : World :=
  emit (ModalHidden "location-modal")
    {| now := now w; toast_container := toast_container w; next_id := next_id w;
       timers := timers w;
       location_modal := {| visibility := "hidden"; opacity := "0" |};
       location_form := location_form w; form_defaults := form_defaults w;
       trace := trace w |}.

Definition reset_form (w : World) : World :=
  emit FormReset
    {| now := now w; toast_container := toast_container w; next_id := next_id w;
       timers := timers w; location_modal := location_modal w;
       location_form := form_defaults w; form_defaults := form_defaults w;
       trace := trace w |}.

Definition loadDashboardData (w : World) : World :=
  setTimeout DashboardLoaded 1000 (emit (ConsoleLog "Loading dashboard data...") w).

Definition showModal (w : World) : World :=
  {| now := now w; toast_container := toast_container w; next_id := next_id w;
     timers := timers w;
     location_modal := {| visibility := "visible"; opacity := "1" |};
     location_form := location_form w; form_defaults := form_defaults w;
     trace := trace w |}.

(** The simulated actions: an info toast now, a success toast later. *)
Definition startAnalysis (w : World) : World :=
  setTimeout (Announce "Analysis completed!" "success") 3000
    (showToast "Starting climate analysis..." "info" w).

Definition generateReport (w : World) : World :=
  setTimeout (Announce "Report generated successfully!" "success") 2000
    (showToast "Generating climate report..." "info" w).

Definition createEmergencyPlan (w : World) : World :=
  setTimeout (Announce "Emergency plan created!" "success") 2500
    (showToast "Creating emergency plan..." "info" w).

Definition showDemo (w : World) : World :=
  setTimeout (Announce "Demo ready!" "success") 1500
    (showToast "Loading demo..." "info" w).

Definition handleActionCardClick (action : string) (w : World) : World :=
  if String.eqb action "location" then showModal w
  else if String.eqb action "analysis" then startAnalysis w
  else if String.eqb action "report" then generateReport w
  else if String.eqb action "emergency" then createEmergencyPlan w
  else emit (ConsoleLog ("Unknown action: " +:+ action)) w.

(** Running a callback whose timer has expired.  [DashboardLoaded] is the
    callback of [loadDashboardData]: it starts the stat animations, each
    of which is an [Animator.animateNumber], and logs. *)
Definition fire (cb : Callback) (w : World) : World :=
  match cb with
  | RemoveToast id => if attached id w then remove_toast id w else w
  | LocationAdded =>
      loadDashboardData
        (reset_form (hideModal (showToast "Location added successfully!" "success" w)))
  | DashboardLoaded =>
      emit (ConsoleLog "Dashboard data loaded") (emit StatsAnimated w)
  | Announce message type => showToast message type w
  end.

Definition set_clock (t : Z) (q : list (Z * Callback)) (w : World) : World :=
  {| now := t; toast_container := toast_container w; next_id := next_id w;
     timers := q; location_modal := location_modal w;
     location_form := location_form w; form_defaults := form_defaults w;
     trace := trace w |}.

Definition fire_all (due : list (Z * Callback)) (w : World) : World :=
  fold_left (fun w' e => fire (snd e) w') due w.

(** Time passes by [dt] milliseconds and the event loop then runs, in
    queue order, every callback that has become due. *)
Definition advance (dt : Z) (w : World) : World :=
  let t := now w + dt in
  let due := List.filter (fun e => fst e <=? t) (timers w) in
  let rest := List.filter (fun e => negb (fst e <=? t)) (timers w) in
  fire_all due (set_clock t rest w).

(** The page as it is loaded: nothing shown, nothing pending, and the
    form holding its default values. *)
Definition initial (defaults : Form) : World :=
  {| now := 0; toast_container := []; next_id := 0; timers := [];
     location_modal := {| visibility := "hidden"; opacity := "0" |};
     location_form := defaults; form_defaults := defaults; trace := [] |}.

(** The user fills in the location form. *)
Definition fill (f : Form) (w : World) : World :=
  {| now := now w; toast_container := toast_container w; next_id := next_id w;
     timers := timers w; location_modal := location_modal w;
     location_form := f; form_defaults := form_defaults w;
     trace := trace w |}.

Definition empty_form : Form :=
  {| location_name := ""; location_address := ""; latitude := "";
     longitude := ""; property_type := "residential" |}.

End Page.

(** ** The location modal *)

Module Modal.
Import Page.

Record FormData : Type := {
  name : string;
  address : string;
  lat : Num.number;
  lng : Num.number;
  propertyType : string
}.

Definition submitLocationData (data : FormData) (w : World) : World :=
  setTimeout LocationAdded 1500 (showToast "Adding location..." "info" w).

Definition read_form (f : Form) : FormData :=
  {| name := location_name f;
     address := location_address f;
     lat := Num.parseFloat (latitude f);
     lng := Num.parseFloat (longitude f);
     propertyType := property_type f |}.

Definition handleLocationSubmission (w : World) : World :=
  let formData := read_form (location_form w) in
  if negb (Num.truthy_string (name formData))
     || negb (Num.truthy (lat formData))
     || negb (Num.truthy (lng formData))
  then showToast "Please fill in all required fields" "error" w
  else submitLocationData formData w.

End Modal.

(** ** The temperature chart *)

Module Charts.

Record Chart : Type := {
  labels : list string;
  data : list Q;
  redraws : nat
}.

(** The loop [for (i = n - 1; i >= 0; i--)] of [generateDateLabels], with
    [n] iterations left. *)
Fixpoint date_labels_from (now : Z) (n : nat) : list string :=
  match n with
  | O => []
  | S i =>
      let date := Dates.setDate now (Dates.getDate now - Z.of_nat i) in
      Dates.toLocaleDateString date :: date_labels_from now i
  end.

Definition generateDateLabels (days : nat) (now : Z) : list string :=
  date_labels_from now days.

Section Generator.

Variable rnd : Q -> Q.

(** [Math.random] is a sequence of draws [random] and the number [k] of
    draws already taken. *)
Definition baseTemp : Q := 245 # 10.

Definition temperature (r : Q) : Q :=
  let variation := Num.fmul rnd (Num.fsub rnd r (1 # 2)) 8 in
  Num.fadd rnd baseTemp variation.

Fixpoint generateTemperatureData (days : nat) (random : nat -> Q) (k : nat)
  : list Q * nat :=
  match days with
  | O => ([], k)
  | S n =>
      let v := temperature (random k) in
      let '(rest, k') := generateTemperatureData n random (S k) in
      (v :: rest, k')
  end.

Definition days_of_range (timeRange : string) : nat :=
  if String.eqb timeRange "7d" then 7
  else if String.eqb timeRange "30d" then 30
  else if String.eqb timeRange "90d" then 90
  else if String.eqb timeRange "1y" then 365
  else 30.

Definition updateChartData (timeRange : string) (temperatureChart : option Chart)
    (now : Z) (random : nat -> Q) (k : nat) : option Chart * nat :=
  let days := days_of_range timeRange in
  match temperatureChart with
  | Some c =>
      let l := generateDateLabels days now in
      let '(d, k') := generateTemperatureData days random k in
      (Some {| labels := l; data := d; redraws := S (redraws c) |}, k')
  | None => (None, k)
  end.

End Generator.

End Charts.

(** ** The stat animator *)

Module Animator.

Section Animate.

Variable rnd : Q -> Q.
Variables start end_ duration : Q.
Variable startTime : Z.

Definition range : Q := Num.fsub rnd end_ start.

(** Clock readings are whole milliseconds, whose difference is exact. *)
Definition elapsed (now : Z) : Q := inject_Z (now - startTime).

Definition progress (now : Z) : Q := Qmin (Num.fdiv rnd (elapsed now) duration) 1.

Definition current (now : Z) : Q :=
  Num.fadd rnd start (Num.fmul rnd range (progress now)).

(** One run of [update] at clock reading [now]: the text the element
    shows when it returns (as the number it denotes) and whether another
    animation frame was requested, which is the case while [progress < 1]. *)
Definition running (now : Z) : bool := Num.Qltb (progress now) 1.

Definition update (now : Z) : Q * bool :=
  let text := Num.toFixed1 (current now) in
  if running now then (text, true) else (end_, false).

(** The texts shown after each run of [update], for the clock readings
    of the successive runs; the animation stops with the first run that
    does not request a frame. *)
Fixpoint frames (clock : list Z) : list Q :=
  match clock with
  | [] => []
  | now :: rest =>
      let '(text, again) := update now in
      text :: (if again then frames rest else [])
  end.

End Animate.


End Animator.

(** ** The API client *)

Module Api.
Import Page.

#[local] Unset Elimination Schemes.
Inductive JSON : Type :=
  | JNull
  | JBool (b : bool)
  | JNumber (q : Q)
  | JString (s : string)
  | JArray (items : list JSON)
  | JObject (members : list (string * JSON)).
#[local] Set Elimination Schemes.

(** A response: its status and what [response.json()] settles to. *)
Record Response : Type := { status : Z; json : Error + JSON }.

Definition ok (r : Response) : bool := (200 <=? status r) && (status r <=? 299).

(** What the promise returned by [fetch] settles to. *)
Inductive Settled : Type :=
  | Rejected (e : Error)
  | Fulfilled (r : Response).

Record ClimateAPI : Type := { baseURL : string; token : option string }.

(** [localStorage] is a dictionary; [getItem] of a missing key is null. *)
Definition constructor (localStorage : gmap string string) : ClimateAPI :=
  {| baseURL := "/api/v1"; token := localStorage !! "auth_token" |}.

(** [...(this.token && { 'Authorization': ... })]: null and the empty
    string are falsy and spread to nothing. *)
Definition authorization (api : ClimateAPI) : gmap string string :=
  match token api with
  | Some t => if Num.truthy_string t then {[ "Authorization" := "Bearer " +:+ t ]} else ∅
  | None => ∅
  end.

Definition default_headers (api : ClimateAPI) : gmap string string :=
  authorization api ∪ {[ "Content-Type" := "application/json" ]}.

(** [{ headers: {...}, ...options }]: the properties of [options] win. *)
Definition config (api : ClimateAPI) (options : gmap string Value) : gmap string Value :=
  options ∪ {[ "headers" := Obj (default_headers api) ]}.

(** The header fields [fetch] sends for a configuration. *)
Definition sent_headers (cfg : gmap string Value) : gmap string string :=
  match cfg !! "headers" with
  | Some (Obj h) => h
  | _ => ∅
  end.

Definition failed (error : Error) (w : World) : World * (Error + JSON) :=
  (showToast "API request failed" "error" (emit (ConsoleError "API request failed:" error) w),
   inl error).

Definition request (api : ClimateAPI) (endpoint : string) (options : gmap string Value)
    (fetch : string -> gmap string Value -> Settled) (w : World)
  : World * (Error + JSON) :=
  let cfg := config api options in
  let url := baseURL api +:+ endpoint in
  let w1 := emit (Fetch url cfg) w in
  match fetch url cfg with
  | Rejected error => failed error w1
  | Fulfilled response =>
      if negb (ok response) then
        failed {| error_name := "Error";
                  error_message := "HTTP error! status: " +:+ pretty (status response) |} w1
      else
        match json response with
        | inl error => failed error w1
        | inr body => (w1, inr body)
        end
  end.

(** The three backend operations; the texts of the coordinates, of the
    serialised body and of the analysis id are taken as given. *)
Definition getClimateData (api : ClimateAPI) (lat lng : string) :=
  request api ("/climate/data?lat=" +:+ lat +:+ "&lng=" +:+ lng) ∅.

Definition startAnalysis (api : ClimateAPI) (body : string) :=
  request api "/analyze" (<["method" := Str "POST"]> (<["body" := Str body]> ∅)).

Definition getRecommendations (api : ClimateAPI) (analysisId : string) :=
  request api ("/recommendations/" +:+ analysisId) ∅.

(** What a failed request leaves behind: the call to [fetch], one console
    error, one toast 'API request failed', and the error for the caller. *)
Definition request_failed (api : ClimateAPI) (endpoint : string)
    (options : gmap string Value) (error : Error) (w : World)
    (result : World * (Error + JSON)) : Prop :=
  snd result = inl error
  /\ trace (fst result)
     = trace w ++ [Fetch (baseURL api +:+ endpoint) (config api options);
                   ConsoleError "API request failed:" error;
                   ToastShown "API request failed" "error"]
  /\ exists toast,
       toast_message toast = "API request failed"%string
       /\ toast_class toast = "toast toast-error"%string
       /\ toast_container (fst result) = toast_container w ++ [toast].

(** Two errors a browser raises: a body that is not JSON, and a request
    that never got an answer. *)
Definition syntax_error : Error :=
  {| error_name := "SyntaxError"; error_message := "Unexpected end of JSON input" |}.

Definition network_error : Error :=
  {| error_name := "TypeError"; error_message := "Failed to fetch" |}.

End Api.

(** ** A session: what happens to the page, one event after another *)

Module Session.
Import Page.

(** [Shown] is a call of [showToast] from anywhere (a failed request, for
    one); [Dismissed] a click on the close button of a toast; [Elapsed]
    the passing of time; [Filled] and [Submitted] the location form;
    [ActionCard] and [DemoRequested] clicks on an action card and on the
    demo button. *)
Inductive Event : Type :=
  | Shown (message type : string)
  | Dismissed (id : nat)
  | Elapsed (dt : N)
  | Filled (f : Form)
  | Submitted
  | ActionCard (action : string)
  | DemoRequested.

Definition step (e : Event) (w : World) : World :=
  match e with
  | Shown message type => showToast message type w
  | Dismissed id => dismiss id w
  | Elapsed dt => advance (Z.of_N dt) w
  | Filled f => fill f w
  | Submitted => Modal.handleLocationSubmission w
  | ActionCard action => handleActionCardClick action w
  | DemoRequested => showDemo w
  end.

Definition run (events : list Event) (w : World) : World :=
  fold_left (fun w' e => step e w') events w.

(** Every pending toast timer belongs to a toast that has been created. *)
Definition fresh_timers (w : World) : Prop :=
  forall d id, In (d, RemoveToast id) (timers w) -> (id < next_id w)%nat.

(** [keeps id w w']: going from [w] to [w'] leaves the toast [id] and its
    timers alone, and takes no time. *)
Definition keeps (id : nat) (w w' : World) : Prop :=
  (next_id w <= next_id w')%nat
  /\ attached id w' = attached id w
  /\ (forall d, In (d, RemoveToast id) (timers w') <-> In (d, RemoveToast id) (timers w))
  /\ now w' = now w.

(** The two stages in the life of a toast nobody dismisses: shown, with
    its one timer pending and due at [due]; and gone, at or after [due]. *)
Definition pending (id : nat) (due : Z) (w : World) : Prop :=
  attached id w = true
  /\ (id < next_id w)%nat
  /\ In (due, RemoveToast id) (timers w)
  /\ (forall d, In (d, RemoveToast id) (timers w) -> d = due)
  /\ now w < due.

Definition gone (id : nat) (due : Z) (w : World) : Prop :=
  attached id w = false /\ (id < next_id w)%nat /\ due <= now w.

(** What the callback of [submitLocationData] does, in order. *)
Definition location_added_effects : list Effect :=
  [ToastShown "Location added successfully!" "success";
   ModalHidden "location-modal";
   FormReset;
   ConsoleLog "Loading dashboard data..."].

End Session.


(** ** The flows of the page, seen from outside *)

Module Flows.
Import Page.

(** What running a callback adds to the trace. *)
Definition callback_effects (cb : Callback) : list Effect :=
  match cb with
  | RemoveToast _ => []
  | LocationAdded => Session.location_added_effects
  | DashboardLoaded => [StatsAnimated; ConsoleLog "Dashboard data loaded"]
  | Announce message type => [ToastShown message type]
  end.

Definition is_fetch (e : Effect) : bool :=
  match e with
  | Fetch _ _ => true
  | _ => false
  end.

(** The messages of the toasts shown so far, oldest first. *)
Definition shown_messages (tr : list Effect) : list string :=
  flat_map (fun e => match e with ToastShown m _ => [m] | _ => [] end) tr.

(** The messages of the toasts on screen, top to bottom. *)
Definition on_screen (w : World) : list string :=
  map toast_message (toast_container w).

(** The toasts on screen are among the toasts shown, in the order in which
    they were shown. *)
Definition screened (w : World) : Prop :=
  on_screen w `sublist_of` shown_messages (trace w).

(** [grows w w']: going from [w] to [w'] takes no time, drops no timer,
    and puts on screen only new toasts whose removal it schedules. *)
Definition grows (w w' : World) : Prop :=
  (next_id w <= next_id w')%nat
  /\ now w' = now w
  /\ (forall x, In x (timers w) -> In x (timers w'))
  /\ (forall id, attached id w' = true ->
        attached id w = true
        \/ ((next_id w <= id < next_id w')%nat
            /\ exists d, In (d, RemoveToast id) (timers w') /\ d <= now w + 5000)).

(** Nothing but removals of toasts is pending. *)
Definition quiet (w : World) : Prop :=
  forall e, In e (timers w) -> callback_effects (snd e) = [].

(** Every toast on screen has its removal pending, due within 5000 ms. *)
Definition covered (w : World) : Prop :=
  forall id, attached id w = true ->
    (id < next_id w)%nat
    /\ exists d, In (d, RemoveToast id) (timers w) /\ d <= now w + 5000.

(** The same in the middle of a round of the event loop, where the
    callbacks in [due] have left the queue and are still to run. *)
Definition covered_upto (due : list (Z * Callback)) (w : World) : Prop :=
  forall id, attached id w = true ->
    (id < next_id w)%nat
    /\ ((exists d, In (d, RemoveToast id) (timers w) /\ d <= now w + 5000)
        \/ exists d, In (d, RemoveToast id) due).

End Flows.

(** ** The search overlay *)

Module Search.

(** String.prototype.trim, on the white space [parseFloat] skips. *)
Fixpoint trim_end (s : string) : string :=
  match s with
  | EmptyString => EmptyString
  | String c s' =>
      match trim_end s' with
      | EmptyString => if Num.is_whitespace c then EmptyString else String c EmptyString
      | r => String c r
      end
  end.

Definition trim (s : string) : string := trim_end (Num.trim_start s).



(** The inline style of the overlay, whether the input has the focus, and
    the queries handed to [performSearch], oldest first. *)
Record State : Type := {
  overlay : Page.Style;
  focused : bool;
  searches : list string
}.

(** Before any event the overlay has no inline style of its own. *)
Definition initial : State :=
  {| overlay := {| Page.visibility := ""; Page.opacity := "" |};
     focused := false; searches := [] |}.

Inductive Event : Type :=
  | ButtonClicked
  | CloseClicked
  | KeyDown (key : string)
  | Input (value : string).

Definition hidden : Page.Style := {| Page.visibility := "hidden"; Page.opacity := "0" |}.
Definition visible : Page.Style := {| Page.visibility := "visible"; Page.opacity := "1" |}.

Definition performSearch (query : string) (s : State) : State :=
  {| overlay := overlay s; focused := focused s; searches := searches s ++ [query] |}.

Definition step (e : Event) (s : State) : State :=
  match e with
  | ButtonClicked =>
      {| overlay := visible; focused := true; searches := searches s |}
  | CloseClicked =>
      {| overlay := hidden; focused := focused s; searches := searches s |}
  | KeyDown key =>
      if String.eqb key "Escape" && String.eqb (Page.visibility (overlay s)) "visible"
      then {| overlay := hidden; focused := focused s; searches := searches s |}
      else s
  | Input value =>
      let query := trim value in
      if (2 <? String.length query)%nat then performSearch query s else s
  end.

Definition run (events : list Event) (s : State) : State :=
  fold_left (fun s' e => step e s') events s.

Definition is_open (s : State) : bool :=
  String.eqb (Page.visibility (overlay s)) "visible".

(** The overlay as a machine of two states, open and closed. *)
Definition decide_open (e : Event) (open : bool) : bool :=
  match e with
  | ButtonClicked => true
  | CloseClicked => false
  | KeyDown key => if String.eqb key "Escape" then false else open
  | Input _ => open
  end.

End Search.

(** ** Navigation *)

Module Navigation.

Record Link : Type := { href : string; classList : gset string }.

Record Nav : Type := {
  navLinks : list Link;
  navMenu : gset string;
  console : list Page.Effect
}.

Definition remove_class (c : string) (l : Link) : Link :=
  {| href := href l; classList := classList l ∖ {[ c ]} |}.

Definition add_class (c : string) (l : Link) : Link :=
  {| href := href l; classList := classList l ∪ {[ c ]} |}.

(** classList.toggle *)
Definition toggle (c : string) (s : gset string) : gset string :=
  if decide (c ∈ s) then s ∖ {[ c ]} else s ∪ {[ c ]}.

Definition navigateToSection (sectionId : string) (n : Nav) : Nav :=
  {| navLinks := navLinks n; navMenu := navMenu n;
     console := console n ++ [Page.ConsoleLog ("Navigating to: " +:+ sectionId)] |}.

(** The click handler of the [i]-th navigation link; there is no handler
    where there is no link. *)
Definition clickLink (i : nat) (n : Nav) : Nav :=
  match navLinks n !! i with
  | None => n
  | Some this =>
      let cleared := remove_class "active" <$> navLinks n in
      let marked := alter (add_class "active") i cleared in
      navigateToSection (href this)
        {| navLinks := marked; navMenu := navMenu n; console := console n |}
  end.

(** The click handler of the mobile toggle. *)
Definition toggleMobileMenu (n : Nav) : Nav :=
  {| navLinks := navLinks n; navMenu := toggle "active" (navMenu n);
     console := console n |}.

End Navigation.

(** ** The stat numbers *)

Module Stats.


Section Animate.

Variable rnd : Q -> Q.



End Animate.

End Stats.

(** ** The chart from its creation on *)

Module Dashboard.

Section Chart.

Variable rnd : Q -> Q.

(** [initializeCharts]: with a canvas on the page the chart is created
  with 30 labels and 30 values; without one there is no chart. *)
Definition initializeCharts (canvas : bool) (now : Z) (random : nat -> Q) (k : nat)
: option Charts.Chart * nat :=
if canvas then
  let l := Charts.generateDateLabels 30 now in
  let '(d, k') := Charts.generateTemperatureData rnd 30 random k in
  (Some {| Charts.labels := l; Charts.data := d; Charts.redraws := 0 |}, k')
else (None, k).

(** The change events of the time selector, each with the range chosen
  and the time of the choice. *)
Fixpoint selectRanges (changes : list (string * Z)) (temperatureChart : option Charts.Chart)
  (random : nat -> Q) (k : nat) : option Charts.Chart * nat :=
match changes with
| [] => (temperatureChart, k)
| (timeRange, now) :: rest =>
    let '(c, k') := Charts.updateChartData rnd timeRange temperatureChart now random k in
    selectRanges rest c random k'
end.

End Chart.

(** The number of points of the range chosen last, 30 before any choice. *)
Definition last_days (changes : list (string * Z)) : nat :=
  match last (map fst changes) with
  | Some timeRange => Charts.days_of_range timeRange
  | None => 30%nat
  end.

Definition total_days (changes : list (string * Z)) : nat :=
  list_sum (map (fun c => Charts.days_of_range (fst c)) changes).

End Dashboard.
(** * Properties *)

Import Session.

Import Page.

(** ** Sanity checks of the embedding *)

Example binary64_samples :
  Num.binary64 (1 # 10) = (3602879701896397 # 36028797018963968)%Q
  /\ Num.binary64 (15 # 100) = (5404319552844595 # 36028797018963968)%Q
  /\ Num.binary64 (1 # 4) = (1 # 4)%Q
  /\ Num.binary64 (- (7 # 2)) = (- (7 # 2))%Q
  /\ Num.binary64 9007199254740993 = 9007199254740992%Q.
Proof. repeat split; vm_compute; reflexivity. Qed.

Example parseFloat_samples :
  Num.parseFloat "25.77" = Num.Finite (Num.binary64 (2577 # 100))
  /\ Num.parseFloat "  -80.19" = Num.Finite (- Num.binary64 (8019 # 100))
  /\ Num.parseFloat "0" = Num.Finite 0
  /\ Num.parseFloat "1e-400" = Num.Finite 0
  /\ Num.parseFloat "1e400" = Num.Infinity false
  /\ Num.parseFloat "12px" = Num.Finite (Num.binary64 12)
  /\ Num.parseFloat "abc" = Num.NaN
  /\ Num.parseFloat "" = Num.NaN
  /\ Num.parseFloat "." = Num.NaN
  /\ Num.parseFloat "-Infinity" = Num.Infinity true.
Proof. repeat split; vm_compute; reflexivity. Qed.

Example toFixed1_samples :
  Num.toFixed1 (1 # 4) = (3 # 10)%Q
  /\ Num.toFixed1 (- (1 # 4)) = (-3 # 10)%Q
  /\ Num.toFixed1 (2574 # 10000) = (3 # 10)%Q
  /\ Num.toFixed1 617 = (6170 # 10)%Q.
Proof. repeat split; vm_compute; reflexivity. Qed.

Example calendar_samples :
  Dates.civil_from_days 0 = {| Dates.year := 1970; Dates.month := 0; Dates.date := 1 |}
  /\ Dates.civil_from_days 19782 = {| Dates.year := 2024; Dates.month := 1; Dates.date := 29 |}
  /\ Dates.civil_from_days (-1) = {| Dates.year := 1969; Dates.month := 11; Dates.date := 31 |}
  /\ Dates.days_from_civil 2026 10 (-3) = 20754
  /\ Dates.toLocaleDateString (Dates.setDate (20759 * 86400000 + 1) (-3)) = "Oct 28"%string.
Proof. repeat split; vm_compute; reflexivity. Qed.

(** ** Location form: validation *)

Lemma showToast_trace message type w :
  trace (showToast message type w) = trace w ++ [ToastShown message type].
Proof. reflexivity. Qed.

Lemma showToast_timers message type w :
  timers (showToast message type w)
  = enqueue (now w + 5000, RemoveToast (next_id w)) (timers w).
Proof. reflexivity. Qed.

Lemma truthy_NaN_false n : n = Num.NaN -> Num.truthy n = false.
Proof. intros ->. reflexivity. Qed.

(** C1: a submission whose name is empty, or whose latitude or longitude
    does not parse as a number, does nothing but show the toast
    'Please fill in all required fields': the trace grows by that one
    effect (so no fetch and no 'Adding location...'), the only new timer
    is the toast's own, and the form and the modal are left as they were. *)
Theorem C1_invalid_submission_rejected (w : World) :
  location_name (location_form w) = ""%string
  \/ Num.parseFloat (latitude (location_form w)) = Num.NaN
  \/ Num.parseFloat (longitude (location_form w)) = Num.NaN ->
  Modal.handleLocationSubmission w
    = showToast "Please fill in all required fields" "error" w
  /\ trace (Modal.handleLocationSubmission w)
    = trace w ++ [ToastShown "Please fill in all required fields" "error"]
  /\ timers (Modal.handleLocationSubmission w)
    = enqueue (now w + 5000, RemoveToast (next_id w)) (timers w)
  /\ location_form (Modal.handleLocationSubmission w) = location_form w
  /\ location_modal (Modal.handleLocationSubmission w) = location_modal w.
Proof.
  intros H.
  assert (E : Modal.handleLocationSubmission w
              = showToast "Please fill in all required fields" "error" w).
  { unfold Modal.handleLocationSubmission, Modal.read_form; cbn [Modal.name Modal.lat Modal.lng].
    destruct H as [H | [H | H]].
    - rewrite H. reflexivity.
    - rewrite (truthy_NaN_false _ H). cbn [negb]. rewrite orb_true_r. reflexivity.
    - rewrite (truthy_NaN_false _ H). cbn [negb]. rewrite orb_true_r. reflexivity. }
  rewrite E. repeat split.
Qed.

Lemma C1_invalid_submission_rejected_witness :
  let w := fill {| location_name := "Home"; location_address := "";
                   latitude := "north"; longitude := "-80.19";
                   property_type := "residential" |} (initial empty_form) in
  trace (Modal.handleLocationSubmission w)
    = [ToastShown "Please fill in all required fields" "error"].
Proof.
  intros w.
  refine (proj1 (proj2 (C1_invalid_submission_rejected w _))).
  right; left. vm_compute. reflexivity.
Defined.

(** C8, at the equator: the name is filled in and both coordinates parse
    as numbers, the latitude as zero, yet the submission is rejected with
    the validation toast and never reaches [submitLocationData]. *)
Theorem C8_zero_latitude_rejected :
  let f := {| location_name := "Home"; location_address := "";
              latitude := "0"; longitude := "-80.19";
              property_type := "residential" |} in
  let w := fill f (initial empty_form) in
  Num.truthy_string (location_name f) = true
  /\ Num.parseFloat (latitude f) = Num.Finite 0
  /\ Num.isNaN (Num.parseFloat (latitude f)) = false
  /\ Num.isNaN (Num.parseFloat (longitude f)) = false
  /\ Modal.handleLocationSubmission w
     = showToast "Please fill in all required fields" "error" w
  /\ trace (Modal.handleLocationSubmission w)
     = [ToastShown "Please fill in all required fields" "error"]
  /\ Modal.handleLocationSubmission w
     <> Modal.submitLocationData (Modal.read_form f) w.
Proof.
  repeat split; try (vm_compute; reflexivity).
  vm_compute. discriminate.
Qed.

(** The same on the prime meridian: a longitude of zero is rejected. *)
Example zero_longitude_rejected :
  let f := {| location_name := "Greenwich"; location_address := "";
              latitude := "51.48"; longitude := "0";
              property_type := "commercial" |} in
  let w := fill f (initial empty_form) in
  Num.parseFloat (longitude f) = Num.Finite 0
  /\ trace (Modal.handleLocationSubmission w)
     = [ToastShown "Please fill in all required fields" "error"].
Proof. split; vm_compute; reflexivity. Qed.


(** ** Timers and toasts: general facts *)

Lemma In_enqueue (x t : Z * Callback) q : In x (enqueue t q) <-> x = t \/ In x q.
Proof.
  induction q as [| u q IH]; cbn [enqueue].
  - cbn. intuition.
  - destruct (fst u <=? fst t); cbn [In]; rewrite ?IH; cbn [In]; intuition.
Qed.

Lemma attached_app id w extra :
  existsb (fun t => Nat.eqb (toast_id t) id) (toast_container w ++ extra)
  = attached id w || existsb (fun t => Nat.eqb (toast_id t) id) extra.
Proof. apply existsb_app. Qed.

Lemma attached_remove_same id w : attached id (remove_toast id w) = false.
Proof.
  unfold attached, remove_toast. cbn [toast_container set_container].
  induction (toast_container w) as [| t l IH]; [reflexivity |].
  cbn [List.filter]. destruct (Nat.eqb (toast_id t) id) eqn:E; cbn [negb]; [exact IH |].
  cbn [existsb]. now rewrite E, IH.
Qed.

Lemma attached_remove_other id id' w :
  id' <> id -> attached id (remove_toast id' w) = attached id w.
Proof.
  intros Hne. unfold attached, remove_toast. cbn [toast_container set_container].
  induction (toast_container w) as [| t l IH]; [reflexivity |].
  cbn [List.filter existsb].
  destruct (Nat.eqb_spec (toast_id t) id') as [E1 | E1]; cbn [negb existsb].
  - destruct (Nat.eqb_spec (toast_id t) id) as [E2 | E2]; [congruence | exact IH].
  - now rewrite IH.
Qed.

Lemma keeps_refl id w : keeps id w w.
Proof. unfold keeps. intuition. Qed.

Lemma keeps_trans id w1 w2 w3 : keeps id w1 w2 -> keeps id w2 w3 -> keeps id w1 w3.
Proof.
  intros (N1 & A1 & T1 & C1) (N2 & A2 & T2 & C2). unfold keeps.
  repeat split; try congruence; try lia; intros H.
  - apply T1, T2, H.
  - apply T2, T1, H.
Qed.

Lemma showToast_keeps id message type w :
  (id < next_id w)%nat -> keeps id w (showToast message type w).
Proof.
  intros Hid. unfold keeps. repeat split.
  - cbn. lia.
  - unfold attached at 1. cbn [showToast setTimeout toast_container toast_id].
    rewrite attached_app. cbn [existsb toast_id].
    destruct (Nat.eqb_spec (next_id w) id); [lia |]. now rewrite !orb_false_r.
  - rewrite showToast_timers, In_enqueue. intros [E | H]; [| exact H].
    inversion E. lia.
  - rewrite showToast_timers, In_enqueue. auto.
Qed.

Lemma setTimeout_keeps id cb delay w :
  cb <> RemoveToast id -> keeps id w (setTimeout cb delay w).
Proof.
  intros Hcb. unfold keeps. repeat split; try reflexivity.
  - cbn [setTimeout timers]. rewrite In_enqueue. intros [E | H]; [| exact H].
    inversion E. congruence.
  - cbn [setTimeout timers]. rewrite In_enqueue. auto.
Qed.

Lemma remove_toast_keeps id id' w : id' <> id -> keeps id w (remove_toast id' w).
Proof.
  intros Hne. unfold keeps. repeat split; try reflexivity; try tauto.
  now apply attached_remove_other.
Qed.

Lemma fire_keeps id cb w :
  cb <> RemoveToast id -> (id < next_id w)%nat -> keeps id w (fire cb w).
Proof.
  intros Hcb Hid. destruct cb as [id' | | | m ty]; cbn [fire].
  4: now apply showToast_keeps.
  - destruct (attached id' w); [| apply keeps_refl].
    apply remove_toast_keeps. congruence.
  - set (w1 := showToast "Location added successfully!" "success" w).
    apply (keeps_trans id w w1); [apply showToast_keeps; exact Hid |].
    unfold keeps. repeat split; try reflexivity; try (cbn; lia).
    + unfold loadDashboardData. cbn [setTimeout timers]. rewrite In_enqueue.
      intros [E | H]; [discriminate E | exact H].
    + unfold loadDashboardData. cbn [setTimeout timers]. rewrite In_enqueue. auto.
  - unfold keeps. repeat split; try reflexivity; tauto.
Qed.

Lemma fire_next_id cb w : (next_id w <= next_id (fire cb w))%nat.
Proof.
  destruct cb as [id | | | m ty]; cbn [fire].
  - destruct (attached id w); cbn; lia.
  - cbn. lia.
  - cbn. lia.
  - cbn. lia.
Qed.

Lemma fire_now cb w : now (fire cb w) = now w.
Proof.
  destruct cb as [id | | | m ty]; cbn [fire]; [destruct (attached id w) | | |]; reflexivity.
Qed.

Lemma Callback_RemoveToast_dec cb id : {cb = RemoveToast id} + {cb <> RemoveToast id}.
Proof.
  destruct cb as [id' | | | m ty]; try (right; discriminate).
  destruct (Nat.eq_dec id' id) as [-> | Hne]; [left; reflexivity | right; congruence].
Qed.

Lemma fire_gone id cb w :
  (id < next_id w)%nat -> attached id w = false -> attached id (fire cb w) = false.
Proof.
  intros Hid Hgone. destruct (Callback_RemoveToast_dec cb id) as [-> | Hcb].
  - cbn [fire]. now rewrite Hgone.
  - destruct (fire_keeps id cb w Hcb Hid) as (_ & A & _). congruence.
Qed.

Lemma fire_all_next_id l w : (next_id w <= next_id (fire_all l w))%nat.
Proof.
  revert w. induction l as [| e l IH]; intros w; cbn; [lia |].
  etransitivity; [apply (fire_next_id (snd e)) | apply IH].
Qed.

Lemma fire_all_now l w : now (fire_all l w) = now w.
Proof.
  revert w. induction l as [| e l IH]; intros w; cbn; [reflexivity |].
  unfold fire_all in IH. now rewrite IH, fire_now.
Qed.

Lemma fire_all_keeps id l w :
  (forall e, In e l -> snd e <> RemoveToast id) ->
  (id < next_id w)%nat -> keeps id w (fire_all l w).
Proof.
  revert w. induction l as [| e l IH]; intros w Hl Hid; cbn; [apply keeps_refl |].
  assert (K : keeps id w (fire (snd e) w)) by (apply fire_keeps; [apply Hl; now left | exact Hid]).
  eapply keeps_trans; [exact K |].
  apply IH; [intros e' He'; apply Hl; now right |].
  destruct K as (N & _). lia.
Qed.

Lemma fire_all_gone id l w :
  (id < next_id w)%nat -> attached id w = false -> attached id (fire_all l w) = false.
Proof.
  revert w. induction l as [| e l IH]; intros w Hid Hgone; cbn; [exact Hgone |].
  apply IH; [pose proof (fire_next_id (snd e) w); lia | now apply fire_gone].
Qed.

Lemma fire_RemoveToast_detaches id w : attached id (fire (RemoveToast id) w) = false.
Proof.
  cbn [fire]. destruct (attached id w) eqn:E; [apply attached_remove_same | exact E].
Qed.

Lemma fire_all_removes id l w d :
  (id < next_id w)%nat -> In (d, RemoveToast id) l -> attached id (fire_all l w) = false.
Proof.
  revert w. induction l as [| e l IH]; intros w Hid Hin; [destruct Hin |].
  cbn. destruct Hin as [-> | Hin].
  - cbn [snd]. apply fire_all_gone; [pose proof (fire_next_id (RemoveToast id) w); lia |].
    apply fire_RemoveToast_detaches.
  - apply IH; [pose proof (fire_next_id (snd e) w); lia | exact Hin].
Qed.

(** ** Location form: the submission step *)



Lemma fire_all_cons e l w : fire_all (e :: l) w = fire_all l (fire (snd e) w).
Proof. reflexivity. Qed.



Lemma fire_LocationAdded_trace w :
  trace (fire LocationAdded w) = trace w ++ location_added_effects.
Proof. cbn. rewrite <- !app_assoc. reflexivity. Qed.


(** Removing a toast touches the container and nothing else. *)
Lemma fire_RemoveToast_frame id w :
  trace (fire (RemoveToast id) w) = trace w
  /\ location_modal (fire (RemoveToast id) w) = location_modal w
  /\ location_form (fire (RemoveToast id) w) = location_form w
  /\ timers (fire (RemoveToast id) w) = timers w.
Proof. cbn [fire]. destruct (attached id w); repeat split. Qed.

Lemma submitLocationData_trace data w :
  trace (Modal.submitLocationData data w)
  = trace w ++ [ToastShown "Adding location..." "info"].
Proof. reflexivity. Qed.








(** ** Toasts: lifetime *)

Lemma keeps_pending id due w w' : keeps id w w' -> pending id due w -> pending id due w'.
Proof.
  intros (N & A & T & C) (Ha & Hid & Hin & Huniq & Hnow). unfold pending.
  repeat split; try congruence; try lia.
  - now apply T.
  - intros d Hd. apply Huniq, T, Hd.
Qed.

Lemma handleLocationSubmission_keeps id w :
  (id < next_id w)%nat -> keeps id w (Modal.handleLocationSubmission w).
Proof.
  intros Hid. unfold Modal.handleLocationSubmission.
  destruct (_ || _).
  - now apply showToast_keeps.
  - unfold Modal.submitLocationData.
    eapply keeps_trans; [apply showToast_keeps; exact Hid |].
    apply setTimeout_keeps. discriminate.
Qed.

Lemma fill_keeps id f w : keeps id w (fill f w).
Proof. unfold keeps. repeat split; try reflexivity; tauto. Qed.

(** A simulated action: a toast now and a callback that is no removal. *)
Lemma announce_later_keeps id m1 t1 m2 t2 delay w :
  (id < next_id w)%nat ->
  keeps id w (setTimeout (Announce m2 t2) delay (showToast m1 t1 w)).
Proof.
  intros Hid. eapply keeps_trans; [apply showToast_keeps; exact Hid |].
  apply setTimeout_keeps. discriminate.
Qed.

Lemma handleActionCardClick_keeps id action w :
  (id < next_id w)%nat -> keeps id w (handleActionCardClick action w).
Proof.
  intros Hid. unfold handleActionCardClick.
  repeat (destruct (String.eqb action _)).
  - unfold keeps. repeat split; try reflexivity; tauto.
  - now apply announce_later_keeps.
  - now apply announce_later_keeps.
  - now apply announce_later_keeps.
  - unfold keeps. repeat split; try reflexivity; tauto.
Qed.

(** Time passing short of the due time leaves a pending toast pending. *)
Lemma advance_pending_early id due dt w :
  pending id due w -> now w + dt < due -> pending id due (advance dt w).
Proof.
  intros (Ha & Hid & Hin & Huniq & Hnow) Hdt. unfold advance.
  set (t := now w + dt).
  set (rest := List.filter (fun e => negb (fst e <=? t)) (timers w)).
  set (due_now := List.filter (fun e => fst e <=? t) (timers w)).
  assert (P0 : pending id due (set_clock t rest w)).
  { unfold pending. cbn [set_clock attached toast_container next_id timers now].
    repeat split; try assumption.
    - apply filter_In. split; [exact Hin |]. cbn [fst].
      destruct (Z.leb_spec due t); [lia | reflexivity].
    - intros d Hd. apply filter_In in Hd. apply Huniq, Hd. }
  refine (keeps_pending id due _ _ _ P0).
  apply fire_all_keeps; [| exact Hid].
  intros e He Hcb. apply filter_In in He. destruct He as [He Hle].
  destruct e as [d cb]. cbn [snd fst] in *. subst cb.
  apply Huniq in He. subst d. apply Z.leb_le in Hle. lia.
Qed.

(** Time passing up to the due time or beyond runs the timer. *)
Lemma advance_pending_late id due dt w :
  pending id due w -> due <= now w + dt -> gone id due (advance dt w).
Proof.
  intros (Ha & Hid & Hin & Huniq & Hnow) Hdt. unfold advance, gone.
  set (t := now w + dt).
  set (rest := List.filter (fun e => negb (fst e <=? t)) (timers w)).
  split; [| split].
  - apply (fire_all_removes id _ _ due); [exact Hid |].
    apply filter_In. split; [exact Hin |]. cbn [fst]. now apply Z.leb_le.
  - pose proof (fire_all_next_id
                  (List.filter (fun e => fst e <=? t) (timers w)) (set_clock t rest w)) as N.
    cbn [set_clock next_id] in N. lia.
  - rewrite fire_all_now. cbn [set_clock now]. lia.
Qed.

Lemma advance_gone id due dt w :
  gone id due w -> 0 <= dt -> gone id due (advance dt w).
Proof.
  intros (Ha & Hid & Hnow) Hdt. unfold advance, gone.
  set (t := now w + dt).
  set (rest := List.filter (fun e => negb (fst e <=? t)) (timers w)).
  set (due_now := List.filter (fun e => fst e <=? t) (timers w)).
  split; [| split].
  - apply fire_all_gone; assumption.
  - pose proof (fire_all_next_id due_now (set_clock t rest w)) as N.
    cbn [set_clock next_id] in N. lia.
  - rewrite fire_all_now. cbn [set_clock now]. lia.
Qed.

Lemma keeps_gone id due w w' : keeps id w w' -> gone id due w -> gone id due w'.
Proof.
  intros (N & A & T & C) (Ha & Hid & Hnow). unfold gone.
  repeat split; try congruence; lia.
Qed.

Lemma dismiss_gone id due w : gone id due w -> gone id due (dismiss id w).
Proof.
  intros (Ha & Hid & Hnow). unfold gone, dismiss.
  repeat split; [apply attached_remove_same | exact Hid | exact Hnow].
Qed.

Lemma step_keeps id e w :
  (id < next_id w)%nat ->
  match e with
  | Dismissed id' => id' <> id
  | Elapsed _ => False
  | _ => True
  end ->
  keeps id w (step e w).
Proof.
  intros Hid He. destruct e as [m ty | id' | dt | f | | action | ]; cbn [step].
  - now apply showToast_keeps.
  - now apply remove_toast_keeps.
  - destruct He.
  - apply fill_keeps.
  - now apply handleLocationSubmission_keeps.
  - now apply handleActionCardClick_keeps.
  - now apply announce_later_keeps.
Qed.

Lemma step_pending id due e w :
  e <> Dismissed id ->
  pending id due w ->
  pending id due (step e w) \/ gone id due (step e w).
Proof.
  intros He P. destruct e as [m ty | id' | dt | f | | action | ].
  3: { cbn [step]. destruct (Z.lt_ge_cases (now w + Z.of_N dt) due).
       - left. now apply advance_pending_early.
       - right. now apply advance_pending_late. }
  2: { left. refine (keeps_pending _ _ _ _ _ P).
       apply step_keeps; [apply P | congruence]. }
  all: left; refine (keeps_pending _ _ _ _ _ P); apply step_keeps; [apply P | exact I].
Qed.

Lemma step_gone id due e w : gone id due w -> gone id due (step e w).
Proof.
  intros G. destruct e as [m ty | id' | dt | f | | action | ].
  3: { cbn [step]. apply advance_gone; [exact G | lia]. }
  2: { destruct (Nat.eq_dec id' id) as [-> | Hne].
       - now apply dismiss_gone.
       - refine (keeps_gone _ _ _ _ _ G). apply step_keeps; [apply G | exact Hne]. }
  all: refine (keeps_gone _ _ _ _ _ G); apply step_keeps; [apply G | exact I].
Qed.

Lemma run_gone id due events w : gone id due w -> gone id due (run events w).
Proof.
  revert w. induction events as [| e events IH]; intros w G; [exact G |].
  cbn [run fold_left]. apply IH. now apply step_gone.
Qed.

Lemma run_pending id due events w :
  ~ In (Dismissed id) events ->
  pending id due w ->
  pending id due (run events w) \/ gone id due (run events w).
Proof.
  revert w. induction events as [| e events IH]; intros w Hnd P; [now left |].
  cbn [run fold_left].
  destruct (step_pending id due e w) as [P' | G'].
  - intros ->. apply Hnd. now left.
  - exact P.
  - apply IH; [intros H; apply Hnd; now right | exact P'].
  - right. now apply run_gone.
Qed.

Lemma showToast_pending message type w :
  fresh_timers w ->
  pending (next_id w) (now w + 5000) (showToast message type w).
Proof.
  intros Hf. unfold pending. repeat split.
  - unfold attached. cbn [showToast setTimeout toast_container toast_id].
    rewrite existsb_app. cbn [existsb toast_id]. rewrite Nat.eqb_refl.
    now rewrite orb_true_r.
  - cbn. lia.
  - rewrite showToast_timers. apply In_enqueue. now left.
  - intros d. rewrite showToast_timers, In_enqueue. intros [E | H].
    + now inversion E.
    + apply Hf in H. lia.
  - cbn. lia.
Qed.

(** Dismissal is idempotent, whatever the state of the page. *)
Lemma dismiss_twice id w : dismiss id (dismiss id w) = dismiss id w.
Proof.
  unfold dismiss, remove_toast, set_container. cbn [toast_container now next_id timers
    location_modal location_form form_defaults trace].
  f_equal. induction (toast_container w) as [| t l IH]; [reflexivity |].
  cbn [List.filter]. destruct (negb (Nat.eqb (toast_id t) id)) eqn:E; [| exact IH].
  cbn [List.filter]. now rewrite E, IH.
Qed.

(** A timer finding its toast detached leaves the page as it is. *)
Lemma fire_RemoveToast_detached id w :
  attached id w = false -> fire (RemoveToast id) w = w.
Proof. intros H. cbn [fire]. now rewrite H. Qed.

Lemma run_next_id id events w : (id < next_id w)%nat -> (id < next_id (run events w))%nat.
Proof.
  revert w. induction events as [| e events IH]; intros w Hid; [exact Hid |].
  cbn [run fold_left]. apply IH.
  destruct e as [m ty | id' | dt | f | | action | ].
  3: { cbn [step]. unfold advance.
       match goal with |- (_ < next_id (fire_all ?l ?w0))%nat =>
         pose proof (fire_all_next_id l w0) as N end.
       cbn [set_clock next_id] in N. lia. }
  2: exact Hid.
  all: match goal with |- (_ < next_id (step ?e ?w0))%nat =>
         pose proof (step_keeps id e w0 Hid I) as (N & _) end; lia.
Qed.

(** Once dismissed, a toast never shows again. *)
Lemma run_detached id events w :
  (id < next_id w)%nat -> attached id w = false -> attached id (run events w) = false.
Proof.
  revert w. induction events as [| e events IH]; intros w Hid Ha; [exact Ha |].
  cbn [run fold_left]. apply IH.
  - apply (run_next_id id [e] w Hid).
  - destruct e as [m ty | id' | dt | f | | action | ].
    3: { cbn [step]. unfold advance. now apply fire_all_gone. }
    2: { destruct (Nat.eq_dec id' id) as [-> | Hne].
         - apply attached_remove_same.
         - destruct (step_keeps id (Dismissed id') w Hid Hne) as (_ & A & _). congruence. }
    all: match goal with |- attached _ (step ?e ?w0) = false =>
           destruct (step_keeps id e w0 Hid I) as (_ & A & _) end; congruence.
Qed.

(** Pending toast timers stay those of created toasts. *)
Lemma fresh_timers_grow w w' :
  fresh_timers w ->
  (next_id w <= next_id w')%nat ->
  (forall d id, In (d, RemoveToast id) (timers w') ->
                In (d, RemoveToast id) (timers w) \/ (id < next_id w')%nat) ->
  fresh_timers w'.
Proof.
  intros Hf N T d id H. destruct (T d id H) as [H' | H']; [| exact H'].
  apply Hf in H'. lia.
Qed.

Lemma showToast_fresh message type w :
  fresh_timers w -> fresh_timers (showToast message type w).
Proof.
  intros Hf. apply (fresh_timers_grow w); [exact Hf | cbn; lia |].
  intros d id. rewrite showToast_timers, In_enqueue. intros [E | H]; [right | now left].
  inversion E. cbn. lia.
Qed.

Lemma setTimeout_fresh cb delay w :
  (forall id, cb <> RemoveToast id) -> fresh_timers w -> fresh_timers (setTimeout cb delay w).
Proof.
  intros Hcb Hf. apply (fresh_timers_grow w); [exact Hf | cbn; lia |].
  intros d id. cbn [setTimeout timers]. rewrite In_enqueue. intros [E | H]; [| now left].
  inversion E. now destruct (Hcb id).
Qed.

Lemma fire_fresh cb w : fresh_timers w -> fresh_timers (fire cb w).
Proof.
  intros Hf. destruct cb as [id | | | m ty]; cbn [fire].
  4: now apply showToast_fresh.
  - destruct (attached id w); exact Hf.
  - apply (fresh_timers_grow (showToast "Location added successfully!" "success" w));
      [now apply showToast_fresh | cbn; lia |].
    intros d id. unfold loadDashboardData. cbn [setTimeout timers].
    rewrite In_enqueue. intros [E | H]; [discriminate E | left; exact H].
  - exact Hf.
Qed.

Lemma fire_all_fresh l w : fresh_timers w -> fresh_timers (fire_all l w).
Proof.
  revert w. induction l as [| e l IH]; intros w Hf; [exact Hf |].
  cbn. apply IH. now apply fire_fresh.
Qed.

Lemma step_fresh e w : fresh_timers w -> fresh_timers (step e w).
Proof.
  intros Hf. destruct e as [m ty | id | dt | f | | action | ]; cbn [step].
  - now apply showToast_fresh.
  - exact Hf.
  - unfold advance. apply fire_all_fresh.
    intros d id H. cbn [set_clock timers next_id] in *.
    apply filter_In in H. apply (Hf d id), H.
  - exact Hf.
  - unfold Modal.handleLocationSubmission. destruct (_ || _).
    + now apply showToast_fresh.
    + apply setTimeout_fresh; [discriminate | now apply showToast_fresh].
  - unfold handleActionCardClick. repeat (destruct (String.eqb action _)); try exact Hf;
      (apply setTimeout_fresh; [discriminate | now apply showToast_fresh]).
  - apply setTimeout_fresh; [discriminate | now apply showToast_fresh].
Qed.

(** Every page reached from the initial one has fresh timers. *)
Lemma run_fresh events w : fresh_timers w -> fresh_timers (run events w).
Proof.
  revert w. induction events as [| e events IH]; intros w Hf; [exact Hf |].
  cbn [run fold_left]. apply IH. now apply step_fresh.
Qed.

Lemma initial_fresh defaults : fresh_timers (initial defaults).
Proof. intros d id []. Qed.

(** C4: a toast is in the container as soon as [showToast] returns, as
    the last child.  Left alone it is still there at any moment before
    5000 ms have passed and gone at any moment from 5000 ms on, whatever
    else happens on the page.  Dismissing it takes it out at once and
    leaves the other toasts in place; after that it never shows again, its
    timer finds it detached and changes nothing, and a second dismissal
    changes nothing either.  The events range over every flow of the page
    that shows toasts or sets timers. *)
Theorem C4_toast_lifecycle (message type : string) (w : World) :
  fresh_timers w ->
  let id := next_id w in
  let w1 := showToast message type w in
  (exists toast,
      toast_id toast = id /\ toast_message toast = message
      /\ toast_container w1 = toast_container w ++ [toast])
  /\ attached id w1 = true
  /\ (forall events, ~ In (Dismissed id) events ->
        let w2 := run events w1 in
        (now w2 < now w + 5000 -> attached id w2 = true)
        /\ (now w + 5000 <= now w2 -> attached id w2 = false))
  /\ (forall events,
        let w2 := dismiss id (run events w1) in
        attached id w2 = false
        /\ (forall other, other <> id -> attached other w2 = attached other (run events w1))
        /\ (forall later, attached id (run later w2) = false)
        /\ dismiss id w2 = w2)
  /\ (forall w3, attached id w3 = false -> fire (RemoveToast id) w3 = w3).
Proof.
  intros Hf id w1.
  pose proof (showToast_pending message type w Hf) as P. fold id w1 in P.
  split.
  { eexists. split; [| split]. 3: reflexivity. all: reflexivity. }
  split; [apply P |].
  split; [| split].
  - intros events Hnd w2.
    destruct (run_pending id (now w + 5000) events w1 Hnd P) as [P2 | G2].
    + fold w2 in P2. destruct P2 as (A & _ & _ & _ & T). split; [intros _; exact A | lia].
    + fold w2 in G2. destruct G2 as (A & _ & T). split; [lia | intros _; exact A].
  - intros events w2. split; [apply attached_remove_same |].
    split; [intros other Hne; now apply attached_remove_other |].
    split; [| apply dismiss_twice].
    intros later. apply run_detached; [| apply attached_remove_same].
    apply (run_next_id id events w1). apply P.
  - intros w3. apply fire_RemoveToast_detached.
Qed.

Lemma C4_toast_lifecycle_witness :
  let w1 := showToast "Saved" "success" (initial empty_form) in
  attached 0 (run [Elapsed 4999] w1) = true
  /\ attached 0 (run [ActionCard "report"; Elapsed 5000] w1) = false
  /\ attached 0 (run [Elapsed 6000] (dismiss 0 (run [Elapsed 1000] w1))) = false.
Proof.
  intros w1.
  destruct (C4_toast_lifecycle "Saved" "success" (initial empty_form)
              (initial_fresh empty_form)) as (_ & _ & Hlife & Hdismiss & _).
  split; [| split].
  - refine (proj1 (Hlife [Elapsed 4999] _) _).
    + intros [H | []]. discriminate H.
    + reflexivity.
  - refine (proj2 (Hlife [ActionCard "report"; Elapsed 5000] _) _).
    + intros [H | [H | []]]; discriminate H.
    + vm_compute. discriminate.
  - exact (proj1 (proj2 (proj2 (Hdismiss [Elapsed 1000]))) [Elapsed 6000]).
Defined.

(** ** The API client *)

Import Api.

Lemma ok_false_iff r : ok r = false <-> status r < 200 \/ 299 < status r.
Proof.
  unfold ok. rewrite andb_false_iff, !Z.leb_gt. reflexivity.
Qed.

Lemma failed_spec error w :
  snd (failed error w) = inl error
  /\ trace (fst (failed error w))
     = trace w ++ [ConsoleError "API request failed:" error;
                   ToastShown "API request failed" "error"]
  /\ exists toast,
       toast_message toast = "API request failed"%string
       /\ toast_class toast = "toast toast-error"%string
       /\ toast_container (fst (failed error w)) = toast_container w ++ [toast].
Proof.
  split; [reflexivity |]. split.
  - cbn. now rewrite <- app_assoc.
  - eexists. split; [| split]. 3: reflexivity. all: reflexivity.
Qed.

Lemma failed_after_fetch api endpoint options error w :
  request_failed api endpoint options error w
    (failed error (emit (Fetch (baseURL api +:+ endpoint) (config api options)) w)).
Proof.
  destruct (failed_spec error
              (emit (Fetch (baseURL api +:+ endpoint) (config api options)) w))
    as (R & T & C).
  unfold request_failed. split; [exact R |]. split; [| exact C].
  rewrite T. cbn [emit trace]. now rewrite <- app_assoc.
Qed.

(** C2: a response whose status is outside 200..299 makes [request] fail
    with the error 'HTTP error! status: <status>'; a rejected [fetch]
    fails with the rejection itself.  Either failure is logged once with
    console.error, shows the one toast 'API request failed' and hands the
    error to the caller.  A response with a status in 200..299 whose body
    parses returns the parsed body, and nothing is logged or shown. *)
Theorem C2_request_outcomes (api : ClimateAPI) (endpoint : string)
    (options : gmap string Value) (fetch : string -> gmap string Value -> Settled)
    (w : World) :
  let url := (baseURL api +:+ endpoint)%string in
  let cfg := config api options in
  (forall r, fetch url cfg = Fulfilled r -> status r < 200 \/ 299 < status r ->
     request_failed api endpoint options
       {| error_name := "Error";
          error_message := "HTTP error! status: " +:+ pretty (status r) |}
       w (request api endpoint options fetch w))
  /\ (forall e, fetch url cfg = Rejected e ->
        request_failed api endpoint options e w (request api endpoint options fetch w))
  /\ (forall r body, fetch url cfg = Fulfilled r -> 200 <= status r <= 299 ->
        json r = inr body ->
        snd (request api endpoint options fetch w) = inr body
        /\ trace (fst (request api endpoint options fetch w)) = trace w ++ [Fetch url cfg]
        /\ toast_container (fst (request api endpoint options fetch w)) = toast_container w).
Proof.
  intros url cfg. split; [| split].
  - intros r Hr Hs. apply ok_false_iff in Hs. unfold request. fold url cfg.
    rewrite Hr, Hs. cbn [negb]. apply failed_after_fetch.
  - intros e He. unfold request. fold url cfg. rewrite He. apply failed_after_fetch.
  - intros r body Hr Hs Hb. unfold request. fold url cfg. rewrite Hr, Hb.
    assert (Hok : ok r = true).
    { unfold ok. apply andb_true_iff. split; apply Z.leb_le; lia. }
    rewrite Hok. cbn [negb]. repeat split.
Qed.

(** A body that does not parse fails the request the same way. *)
Lemma request_unparsable_body api endpoint options fetch w r e :
  fetch (baseURL api +:+ endpoint)%string (config api options) = Fulfilled r ->
  ok r = true -> json r = inl e ->
  request_failed api endpoint options e w (request api endpoint options fetch w).
Proof.
  intros Hr Hok Hb. unfold request. rewrite Hr, Hok, Hb. cbn [negb].
  apply failed_after_fetch.
Qed.

Lemma C2_request_outcomes_witness :
  let api := constructor ∅ in
  let w := initial empty_form in
  let answer (r : Settled) := request api "/analyze" ∅ (fun _ _ => r) w in
  snd (answer (Fulfilled {| status := 404; json := inl syntax_error |}))
    = inl {| error_name := "Error"; error_message := "HTTP error! status: 404" |}
  /\ snd (answer (Rejected network_error)) = inl network_error
  /\ snd (answer (Fulfilled {| status := 200; json := inr (JArray []) |}))
    = inr (JArray []).
Proof.
  intros api w answer.
  split; [| split].
  - refine (proj1 (proj1 (C2_request_outcomes api "/analyze" ∅
                            (fun _ _ => Fulfilled {| status := 404; json := inl syntax_error |}) w)
                     {| status := 404; json := inl syntax_error |} eq_refl _)).
    right. reflexivity.
  - exact (proj1 (proj1 (proj2 (C2_request_outcomes api "/analyze" ∅
                                  (fun _ _ => Rejected network_error) w))
                    network_error eq_refl)).
  - refine (proj1 (proj2 (proj2 (C2_request_outcomes api "/analyze" ∅
                                   (fun _ _ => Fulfilled {| status := 200; json := inr (JArray []) |}) w))
                     {| status := 200; json := inr (JArray []) |} (JArray []) eq_refl _ eq_refl)).
    cbn. lia.
Defined.

Lemma config_headers_default api (options : gmap string Value) :
  options !! "headers" = None ->
  sent_headers (config api options) = default_headers api.
Proof.
  intros H. unfold sent_headers, config.
  rewrite lookup_union_r by exact H. now rewrite lookup_singleton_eq.
Qed.

Lemma config_headers_override api (options : gmap string Value) v :
  options !! "headers" = Some v ->
  config api options !! "headers" = Some v.
Proof. intros H. unfold config. now apply lookup_union_Some_l. Qed.

Lemma request_fetches api endpoint options fetch w :
  exists rest,
    trace (fst (request api endpoint options fetch w))
    = trace w ++ Fetch (baseURL api +:+ endpoint) (config api options) :: rest.
Proof.
  unfold request.
  destruct (fetch _ _) as [e | r].
  - eexists. cbn. rewrite <- !app_assoc. reflexivity.
  - destruct (negb (ok r)); [| destruct (json r)].
    + eexists. cbn. rewrite <- !app_assoc. reflexivity.
    + eexists. cbn. rewrite <- !app_assoc. reflexivity.
    + exists []. reflexivity.
Qed.

(** The three backend operations pass no headers of their own. *)
Lemma operations_send_default_headers api (body : string) :
  sent_headers (config api ∅) = default_headers api
  /\ sent_headers (config api (<["method" := Str "POST"]> (<["body" := Str body]> ∅)))
     = default_headers api.
Proof.
  split; apply config_headers_default.
  - apply lookup_empty.
  - rewrite !lookup_insert_ne by discriminate. apply lookup_empty.
Qed.

(** C3, as the code has it: for a request whose options carry no headers
    of their own, a non-empty stored token is sent as the header
    Authorization: Bearer <token>; with no stored token, or an empty one,
    no Authorization header is sent at all.  The configuration examined
    is the one [request] hands to [fetch]. *)
Theorem C3_bearer_header_default_headers (localStorage : gmap string string)
    (endpoint : string) (options : gmap string Value)
    (fetch : string -> gmap string Value -> Settled) (w : World) :
  options !! "headers" = None ->
  let api := constructor localStorage in
  (forall t, localStorage !! "auth_token" = Some t -> t <> ""%string ->
     sent_headers (config api options) !! "Authorization" = Some ("Bearer " +:+ t)%string)
  /\ (localStorage !! "auth_token" = None \/ localStorage !! "auth_token" = Some ""%string ->
      sent_headers (config api options) !! "Authorization" = None)
  /\ exists rest,
       trace (fst (request api endpoint options fetch w))
       = trace w ++ Fetch ("/api/v1" +:+ endpoint) (config api options) :: rest.
Proof.
  intros Hopt api. rewrite (config_headers_default api options Hopt).
  unfold default_headers, authorization. cbn [api constructor token].
  split; [| split].
  - intros t Ht Hne. rewrite Ht.
    destruct t as [| c t]; [congruence |]. cbn [Num.truthy_string].
    apply lookup_union_Some_l. apply lookup_singleton_eq.
  - intros [Ht | Ht]; rewrite Ht; cbn [Num.truthy_string];
      rewrite lookup_union_r by apply lookup_empty;
      now rewrite lookup_singleton_ne.
  - apply request_fetches.
Qed.

Lemma C3_bearer_header_default_headers_witness :
  sent_headers (config (constructor {[ "auth_token" := "abc" ]})
                  (<["method" := Str "POST"]> ∅)) !! "Authorization"
  = Some "Bearer abc"%string.
Proof.
  refine (proj1 (C3_bearer_header_default_headers {[ "auth_token" := "abc"%string ]} ""
                   (<["method" := Str "POST"]> ∅) (fun _ _ => Rejected network_error)
                   (initial empty_form) _) "abc"%string _ _).
  - reflexivity.
  - reflexivity.
  - discriminate.
Defined.

(** C3 as stated fails on three inputs: a caller that passes headers gets
    no Authorization header although a token is stored; a caller that
    passes an Authorization header of its own has it sent although no
    token is stored; and a stored empty token gives no header rather than
    the header 'Bearer '. *)
Lemma C3_counterexample :
  (token (constructor {[ "auth_token" := "abc" ]}) = Some "abc"%string
   /\ sent_headers (config (constructor {[ "auth_token" := "abc" ]})
                      {[ "headers" := Obj ∅ ]}) !! "Authorization" = None)
  /\ (token (constructor ∅) = None
      /\ sent_headers (config (constructor ∅)
                         {[ "headers" := Obj {[ "Authorization" := "Basic Zm9v" ]} ]})
           !! "Authorization" = Some "Basic Zm9v"%string)
  /\ (token (constructor {[ "auth_token" := "" ]}) = Some ""%string
      /\ sent_headers (config (constructor {[ "auth_token" := "" ]}) ∅)
           !! "Authorization" = None).
Proof. repeat split; vm_compute; reflexivity. Qed.

(** C10: when the options carry a headers field, that field is the one in
    the configuration [request] hands to [fetch]; the default headers are
    dropped whole.  A header is then sent exactly when the caller's object
    has it, Content-Type and Authorization included, and nothing is sent
    when the field is not an object. *)
Theorem C10_caller_headers_replace_defaults (api : ClimateAPI) (endpoint : string)
    (options : gmap string Value) (fetch : string -> gmap string Value -> Settled)
    (w : World) (v : Value) :
  options !! "headers" = Some v ->
  config api options !! "headers" = Some v
  /\ (forall h, v = Obj h -> sent_headers (config api options) = h)
  /\ (forall h, v = Obj h ->
        h !! "Content-Type" = None /\ h !! "Authorization" = None ->
        sent_headers (config api options) !! "Content-Type" = None
        /\ sent_headers (config api options) !! "Authorization" = None)
  /\ ((forall h, v <> Obj h) -> sent_headers (config api options) = ∅)
  /\ exists rest,
       trace (fst (request api endpoint options fetch w))
       = trace w ++ Fetch (baseURL api +:+ endpoint) (config api options) :: rest.
Proof.
  intros Hopt. pose proof (config_headers_override api options v Hopt) as Hcfg.
  split; [exact Hcfg |].
  split; [intros h ->; unfold sent_headers; now rewrite Hcfg |].
  split; [intros h -> [H1 H2]; unfold sent_headers; rewrite Hcfg; now split |].
  split; [| apply request_fetches].
  intros Hv. unfold sent_headers. rewrite Hcfg.
  destruct v as [| s | h]; try reflexivity. now destruct (Hv h).
Qed.

Lemma C10_caller_headers_replace_defaults_witness :
  let api := constructor {[ "auth_token" := "abc" ]} in
  let options : gmap string Value := {[ "headers" := Obj {[ "Accept" := "text/csv" ]} ]} in
  sent_headers (config api options) = {[ "Accept" := "text/csv" ]}
  /\ sent_headers (config api options) !! "Content-Type" = None
  /\ sent_headers (config api options) !! "Authorization" = None.
Proof.
  intros api options.
  destruct (C10_caller_headers_replace_defaults api "/analyze" options
              (fun _ _ => Rejected network_error) (initial empty_form)
              (Obj {[ "Accept" := "text/csv"%string ]}) eq_refl)
    as (_ & Hsame & Hnone & _).
  split; [exact (Hsame _ eq_refl) |].
  apply (Hnone _ eq_refl). split; reflexivity.
Defined.

(** ** binary64 rounding *)

Lemma round_half_even_bounds x :
  Qfloor x <= Num.round_half_even x <= Qfloor x + 1.
Proof.
  unfold Num.round_half_even. destruct (_ ?= _)%Q; [destruct (Z.even _) | |]; lia.
Qed.

Lemma round_half_even_proper x y : (x == y)%Q -> Num.round_half_even x = Num.round_half_even y.
Proof.
  intros E. unfold Num.round_half_even. rewrite (Qfloor_comp x y E).
  assert (C : (x - inject_Z (Qfloor y) ?= 1 # 2)%Q = (y - inject_Z (Qfloor y) ?= 1 # 2)%Q)
    by (now rewrite E).
  now rewrite C.
Qed.

Lemma round_half_even_Z (n : Z) : Num.round_half_even (inject_Z n) = n.
Proof.
  unfold Num.round_half_even. rewrite Qfloor_Z.
  assert (C : (inject_Z n - inject_Z n ?= 1 # 2)%Q = Lt).
  { apply Qlt_alt. ring_simplify (inject_Z n - inject_Z n)%Q. reflexivity. }
  now rewrite C.
Qed.

Lemma round_half_even_monotone x y :
  (x <= y)%Q -> Num.round_half_even x <= Num.round_half_even y.
Proof.
  intros H. pose proof (Qfloor_resp_le x y H) as F.
  pose proof (round_half_even_bounds x) as Bx.
  pose proof (round_half_even_bounds y) as By.
  destruct (Z.eq_dec (Qfloor x) (Qfloor y)) as [E | NE]; [| lia].
  unfold Num.round_half_even. rewrite <- E.
  destruct (x - inject_Z (Qfloor x) ?= 1 # 2)%Q eqn:Cx;
    destruct (y - inject_Z (Qfloor x) ?= 1 # 2)%Q eqn:Cy;
    try (destruct (Z.even (Qfloor x))); try lia.
  - apply Qeq_alt in Cx. apply Qlt_alt in Cy. lra.
  - apply Qgt_alt in Cx. apply Qeq_alt in Cy. lra.
  - apply Qgt_alt in Cx. apply Qlt_alt in Cy. lra.
  - apply Qgt_alt in Cx. apply Qlt_alt in Cy. lra.
Qed.

Lemma pow2_Z (k : Z) : 0 <= k -> (2 ^ k == inject_Z (2 ^ k))%Q.
Proof. intros H. symmetry. apply (Zpower_Qpower 2 k H). Qed.

Lemma pow2_pos (k : Z) : (0 < 2 ^ k)%Q.
Proof. apply Qpower_0_lt. reflexivity. Qed.

Lemma pow2_add (a b : Z) : (2 ^ (a + b) == 2 ^ a * 2 ^ b)%Q.
Proof. apply Qpower_plus. discriminate. Qed.

Lemma pow2_le (a b : Z) : a <= b -> (2 ^ a <= 2 ^ b)%Q.
Proof. intros H. apply Qpower_le_compat_l; [exact H | discriminate]. Qed.

Lemma pow2_lt_inv (a b : Z) : (2 ^ a < 2 ^ b)%Q -> a < b.
Proof. intros H. apply (Qpower_lt_compat_l_inv 2); [exact H | reflexivity]. Qed.

(** [ilog2 q] is the exponent of the binade of [q]. *)
Lemma ilog2_spec (q : Q) :
  (0 < q)%Q -> (2 ^ Num.ilog2 q <= q)%Q /\ (q < 2 ^ (Num.ilog2 q + 1))%Q.
Proof.
  intros Hq. unfold Num.ilog2. destruct (Qle_bool 1 q) eqn:B.
  - apply Qle_bool_iff in B.
    assert (Hn : 1 <= Qfloor q) by (apply (Qfloor_resp_le 1 q B)).
    destruct (Z.log2_spec (Qfloor q)) as [L U]; [lia |].
    pose proof (Z.log2_nonneg (Qfloor q)) as Hl.
    rewrite !pow2_Z by lia. split.
    + apply Qle_trans with (inject_Z (Qfloor q)); [now rewrite <- Zle_Qle | apply Qfloor_le].
    + apply Qlt_le_trans with (inject_Z (Qfloor q + 1)); [apply Qlt_floor |].
      rewrite <- Zle_Qle. replace (Z.log2 (Qfloor q) + 1) with (Z.succ (Z.log2 (Qfloor q))) by lia.
      lia.
  - assert (Hq1 : (q < 1)%Q).
    { apply Qnot_le_lt. intros C. apply Qle_bool_iff in C. congruence. }
    assert (Ha : (1 < / q)%Q).
    { apply Qlt_shift_inv_l; [exact Hq | lra]. }
    pose proof (Qle_ceiling (/ q)) as C1. pose proof (Qceiling_lt (/ q)) as C2.
    set (c := Qceiling (/ q)) in *.
    assert (Hc : 1 < c).
    { rewrite Zlt_Qlt. apply Qlt_le_trans with (/ q); assumption. }
    destruct (Z.log2_up_spec c Hc) as [L U].
    pose proof (Z.log2_up_pos c Hc) as Hk.
    set (k := Z.log2_up c) in *.
    assert (Hinv : (q * / q == 1)%Q) by (apply Qmult_inv_r; lra).
    split.
    + rewrite Qpower_opp, pow2_Z by lia.
      apply Qle_shift_inv_r.
      * rewrite <- pow2_Z by lia. apply pow2_pos.
      * assert (T : (/ q <= inject_Z (2 ^ k))%Q).
        { apply Qle_trans with (inject_Z c); [exact C1 | now rewrite <- Zle_Qle]. }
        apply Qle_trans with (q * / q)%Q; [rewrite Hinv; apply Qle_refl |].
        apply Qmult_le_l; [exact Hq | exact T].
    + replace (- k + 1) with (- (k - 1)) by lia.
      rewrite Qpower_opp, pow2_Z by lia.
      apply Qlt_shift_inv_l.
      * rewrite <- pow2_Z by lia. apply pow2_pos.
      * assert (S : (inject_Z (2 ^ (k - 1)) < / q)%Q).
        { apply Qle_lt_trans with (inject_Z (c - 1)); [| exact C2].
          rewrite <- Zle_Qle. replace (k - 1) with (Z.pred k) by lia. lia. }
        apply Qlt_le_trans with (q * / q)%Q; [| rewrite Hinv; apply Qle_refl].
        apply Qmult_lt_l; [exact Hq | exact S].
Qed.

Lemma ilog2_monotone (x y : Q) :
  (0 < x)%Q -> (x <= y)%Q -> Num.ilog2 x <= Num.ilog2 y.
Proof.
  intros Hx H.
  destruct (ilog2_spec x Hx) as [Lx _].
  destruct (ilog2_spec y) as [_ Uy]; [lra |].
  assert (P : (2 ^ Num.ilog2 x < 2 ^ (Num.ilog2 y + 1))%Q) by lra.
  apply pow2_lt_inv in P. lia.
Qed.

(** Rounding on the grid of step [2 ^ p] stays on the near side of every
    grid point. *)
Lemma grid_below (x : Q) (p n : Z) :
  (x <= inject_Z n * 2 ^ p)%Q ->
  (inject_Z (Num.round_half_even (x / 2 ^ p)) * 2 ^ p <= inject_Z n * 2 ^ p)%Q.
Proof.
  intros H. pose proof (pow2_pos p) as Hp.
  apply Qmult_le_compat_r; [| lra]. rewrite <- Zle_Qle.
  rewrite <- (round_half_even_Z n). apply round_half_even_monotone.
  now apply Qle_shift_div_r.
Qed.

Lemma grid_above (x : Q) (p n : Z) :
  (inject_Z n * 2 ^ p <= x)%Q ->
  (inject_Z n * 2 ^ p <= inject_Z (Num.round_half_even (x / 2 ^ p)) * 2 ^ p)%Q.
Proof.
  intros H. pose proof (pow2_pos p) as Hp.
  apply Qmult_le_compat_r; [| lra]. rewrite <- Zle_Qle.
  rewrite <- (round_half_even_Z n) at 1. apply round_half_even_monotone.
  now apply Qle_shift_div_l.
Qed.

(** A power of two at or above the last place is a grid point. *)
Lemma pow2_on_grid (e p : Z) : p <= e -> (2 ^ e == inject_Z (2 ^ (e - p)) * 2 ^ p)%Q.
Proof.
  intros H. rewrite <- pow2_Z by lia. rewrite <- pow2_add.
  now replace (e - p + p) with e by lia.
Qed.

Lemma Qeq_bool_false_pos (q : Q) : (0 <= q)%Q -> Qeq_bool q 0 = false -> (0 < q)%Q.
Proof.
  intros H B. apply Qeq_bool_neq in B. apply Qle_lteq in H.
  destruct H as [H | H]; [exact H |]. now destruct B.
Qed.

Lemma round_magnitude_nonneg (q : Q) : (0 <= q)%Q -> (0 <= Num.round_magnitude q)%Q.
Proof.
  intros H. unfold Num.round_magnitude. destruct (Qeq_bool q 0); [apply Qle_refl |].
  rewrite Qred_correct.
  pose proof (grid_above q (Num.ulp_exponent q) 0) as G.
  rewrite Qmult_0_l in G. now apply G.
Qed.

Lemma round_magnitude_monotone (x y : Q) :
  (0 <= x)%Q -> (x <= y)%Q -> (Num.round_magnitude x <= Num.round_magnitude y)%Q.
Proof.
  intros Hx H.
  assert (Hy : (0 <= y)%Q) by lra.
  unfold Num.round_magnitude at 1. destruct (Qeq_bool x 0) eqn:Bx.
  { now apply round_magnitude_nonneg. }
  apply (Qeq_bool_false_pos x Hx) in Bx.
  unfold Num.round_magnitude. destruct (Qeq_bool y 0) eqn:By.
  { apply Qeq_bool_iff in By. lra. }
  rewrite !Qred_correct.
  pose proof (ilog2_monotone x y Bx H) as He.
  destruct (ilog2_spec x Bx) as [_ Ux].
  destruct (ilog2_spec y) as [Ly _]; [lra |].
  unfold Num.ulp_exponent.
  set (ex := Num.ilog2 x) in *. set (ey := Num.ilog2 y) in *.
  destruct (Z.eq_dec (Z.max ex (-1022)) (Z.max ey (-1022))) as [E | NE].
  - rewrite E. set (p := Z.max ey (-1022) - 52). pose proof (pow2_pos p) as Hp.
    apply Qmult_le_compat_r; [| lra]. rewrite <- Zle_Qle.
    apply round_half_even_monotone. unfold Qdiv.
    apply Qmult_le_compat_r; [exact H |]. apply Qlt_le_weak, Qinv_lt_0_compat, Hp.
  - assert (Hlt : ex < ey /\ -1022 < ey) by lia. destruct Hlt as [Hlt Hn].
    replace (Z.max ey (-1022)) with ey by lia.
    set (px := Z.max ex (-1022) - 52).
    apply Qle_trans with (2 ^ ey)%Q.
    + rewrite (pow2_on_grid ey px) by lia. apply grid_below.
      rewrite <- (pow2_on_grid ey px) by lia.
      apply Qle_trans with (2 ^ (ex + 1))%Q; [lra | apply pow2_le; lia].
    + rewrite (pow2_on_grid ey (ey - 52)) by lia. apply grid_above.
      rewrite <- (pow2_on_grid ey (ey - 52)) by lia. exact Ly.
Qed.

Theorem binary64_monotone (x y : Q) : (x <= y)%Q -> (Num.binary64 x <= Num.binary64 y)%Q.
Proof.
  intros H. unfold Num.binary64.
  destruct (Qle_bool 0 x) eqn:Bx, (Qle_bool 0 y) eqn:By.
  - apply Qle_bool_iff in Bx. now apply round_magnitude_monotone.
  - apply Qle_bool_iff in Bx.
    assert (~ (0 <= y)%Q) by (intros C; apply Qle_bool_iff in C; congruence). lra.
  - apply Qle_bool_iff in By.
    assert (Nx : ~ (0 <= x)%Q) by (intros C; apply Qle_bool_iff in C; congruence).
    pose proof (round_magnitude_nonneg (- x)) as P.
    pose proof (round_magnitude_nonneg y By) as Q0.
    assert (0 <= Num.round_magnitude (- x))%Q by (apply P; lra). lra.
  - assert (Nx : ~ (0 <= x)%Q) by (intros C; apply Qle_bool_iff in C; congruence).
    assert (Ny : ~ (0 <= y)%Q) by (intros C; apply Qle_bool_iff in C; congruence).
    apply Qopp_le_compat. apply round_magnitude_monotone; lra.
Qed.

Lemma round_magnitude_proper (x y : Q) :
  (0 <= x)%Q -> (x == y)%Q -> (Num.round_magnitude x == Num.round_magnitude y)%Q.
Proof.
  intros Hx E. apply Qle_antisym; apply round_magnitude_monotone; lra.
Qed.

Lemma half_as_grid (m e : Z) :
  e <= 51 -> (m # 2 == inject_Z (m * 2 ^ (51 - e)) * 2 ^ (e - 52))%Q.
Proof.
  intros He. rewrite inject_Z_mult, <- pow2_Z by lia.
  rewrite <- Qmult_assoc, <- pow2_add.
  replace (51 - e + (e - 52)) with (-1) by lia.
  rewrite (Qmake_Qdiv m 2). reflexivity.
Qed.

Lemma round_magnitude_half_integer (m : Z) :
  0 < m <= 2 ^ 52 -> (Num.round_magnitude (m # 2) == m # 2)%Q.
Proof.
  intros Hm.
  assert (Hq : (0 < m # 2)%Q) by (unfold Qlt; cbn; lia).
  unfold Num.round_magnitude. destruct (Qeq_bool (m # 2) 0) eqn:B.
  { apply Qeq_bool_iff in B. lra. }
  rewrite Qred_correct.
  destruct (ilog2_spec (m # 2) Hq) as [L U]. unfold Num.ulp_exponent.
  set (e := Num.ilog2 (m # 2)) in *.
  assert (Hlo : -1 < e + 1).
  { apply pow2_lt_inv. apply Qle_lt_trans with (m # 2); [| exact U].
    unfold Qle. cbn. lia. }
  assert (Hhi : e <= 51).
  { apply (Qpower_le_compat_l_inv 2); [| reflexivity].
    apply Qle_trans with (m # 2); [exact L |].
    rewrite pow2_Z by lia. unfold Qle. cbn [Qnum Qden inject_Z]. lia. }
  replace (Z.max e (-1022)) with e by lia.
  pose proof (half_as_grid m e Hhi) as G.
  apply Qle_antisym.
  - rewrite G at 2. apply grid_below. rewrite <- G. apply Qle_refl.
  - rewrite G at 1. apply grid_above. rewrite <- G. apply Qle_refl.
Qed.

Theorem binary64_half_integer (m : Z) :
  Z.abs m <= 2 ^ 52 -> (Num.binary64 (m # 2) == m # 2)%Q.
Proof.
  intros Hm. unfold Num.binary64. destruct (Qle_bool 0 (m # 2)) eqn:B.
  - apply Qle_bool_iff in B. assert (0 <= m) by (unfold Qle in B; cbn in B; lia).
    destruct (Z.eq_dec m 0) as [-> | Hne]; [reflexivity |].
    apply round_magnitude_half_integer. lia.
  - assert (Hneg : m < 0).
    { destruct (Z.lt_ge_cases m 0) as [H | H]; [exact H |].
      assert (C : (0 <= m # 2)%Q) by (unfold Qle; cbn; lia).
      apply Qle_bool_iff in C. congruence. }
    assert (E : (- (m # 2) == (- m) # 2)%Q) by reflexivity.
    assert (P : (0 <= - (m # 2))%Q) by (unfold Qle; cbn; lia).
    rewrite (round_magnitude_proper _ _ P E).
    rewrite round_magnitude_half_integer by lia.
    unfold Qeq. cbn. lia.
Qed.

(** ** Numbers under rounding *)

Section Rounding.

Variable rnd : Q -> Q.

(** What is asked of the rounding: it keeps the order, and it leaves
    alone the half-integers of magnitude up to 2^52, all of which
    binary64 represents. *)
Hypothesis rnd_monotone : forall x y : Q, (x <= y)%Q -> (rnd x <= rnd y)%Q.
Hypothesis rnd_half_integer :
  forall m : Z, Z.abs m <= 2 ^ 52 -> (rnd (m # 2) == m # 2)%Q.



Lemma rnd_between (lo hi : Z) (x : Q) :
  Z.abs lo <= 2 ^ 52 -> Z.abs hi <= 2 ^ 52 ->
  (lo # 2 <= x)%Q -> (x <= hi # 2)%Q ->
  (lo # 2 <= rnd x)%Q /\ (rnd x <= hi # 2)%Q.
Proof.
  intros Hlo Hhi L H. split.
  - rewrite <- (rnd_half_integer lo Hlo). now apply rnd_monotone.
  - rewrite <- (rnd_half_integer hi Hhi). now apply rnd_monotone.
Qed.

Lemma variation_bound (r : Q) :
  (0 <= r)%Q -> (r < 1)%Q ->
  (-4 <= Num.fmul rnd (Num.fsub rnd r (1 # 2)) 8)%Q
  /\ (Num.fmul rnd (Num.fsub rnd r (1 # 2)) 8 <= 4)%Q.
Proof.
  intros H0 H1. unfold Num.fmul, Num.fsub.
  destruct (rnd_between (-1) 1 (r - (1 # 2))%Q) as [A1 A2];
    [cbn; lia | cbn; lia | lra | lra |].
  destruct (rnd_between (-8) 8 (rnd (r - (1 # 2)) * 8)%Q) as [B1 B2];
    [cbn; lia | cbn; lia | lra | lra |].
  split; lra.
Qed.

Lemma temperature_bound (r : Q) :
  (0 <= r)%Q -> (r < 1)%Q ->
  (Qabs (Charts.temperature rnd r - Charts.baseTemp) <= 4)%Q.
Proof.
  intros H0 H1. unfold Charts.temperature.
  destruct (variation_bound r H0 H1) as [V1 V2].
  set (variation := Num.fmul rnd (Num.fsub rnd r (1 # 2)) 8) in *.
  unfold Num.fadd, Charts.baseTemp.
  destruct (rnd_between 41 57 ((245 # 10) + variation)%Q) as [C1 C2];
    [cbn; lia | cbn; lia | lra | lra |].
  apply Qabs_Qle_condition. split; lra.
Qed.

Lemma generateTemperatureData_values (days : nat) (random : nat -> Q) (k : nat) :
  fst (Charts.generateTemperatureData rnd days random k)
  = map (fun i => Charts.temperature rnd (random (k + i)%nat)) (seq 0 days)
  /\ snd (Charts.generateTemperatureData rnd days random k) = (k + days)%nat.
Proof.
  revert k. induction days as [| n IH]; intros k; cbn [Charts.generateTemperatureData].
  - split; [reflexivity | cbn; lia].
  - destruct (IH (S k)) as [IH1 IH2].
    destruct (Charts.generateTemperatureData rnd n random (S k)) as [rest k'].
    cbn [fst snd] in *. subst. split; [| lia].
    cbn [seq map]. rewrite Nat.add_0_r. f_equal.
    rewrite <- seq_shift, map_map. apply map_ext. intros i. f_equal. f_equal. lia.
Qed.

(** C9: with every draw of [Math.random] in [0, 1), every value that
    [generateTemperatureData] produces is 24.5 plus a variation of
    magnitude at most 4, and lies within 4 of 24.5. *)
Theorem C9_temperature_within_four (days : nat) (random : nat -> Q) (k : nat) :
  (forall i, (0 <= random i)%Q /\ (random i < 1)%Q) ->
  Forall (fun v =>
            (exists variation,
                v = Num.fadd rnd Charts.baseTemp variation
                /\ (Qabs variation <= 4)%Q)
            /\ (Qabs (v - (245 # 10)) <= 4)%Q)
    (fst (Charts.generateTemperatureData rnd days random k)).
Proof.
  intros Hr. destruct (generateTemperatureData_values days random k) as [-> _].
  apply List.Forall_forall. intros v Hv. apply in_map_iff in Hv.
  destruct Hv as (i & <- & _). destruct (Hr (k + i)%nat) as [H0 H1]. split.
  - eexists. split; [reflexivity |].
    apply Qabs_Qle_condition. apply (variation_bound _ H0 H1).
  - apply (temperature_bound _ H0 H1).
Qed.

End Rounding.

Lemma C9_temperature_within_four_witness :
  Forall (fun v =>
            (exists variation,
                v = Num.fadd Num.binary64 Charts.baseTemp variation
                /\ (Qabs variation <= 4)%Q)
            /\ (Qabs (v - (245 # 10)) <= 4)%Q)
    (fst (Charts.generateTemperatureData Num.binary64 7
            (fun i => Num.binary64 (Z.of_nat (i mod 10) # 10)) 0)).
Proof.
  apply (C9_temperature_within_four Num.binary64 binary64_monotone binary64_half_integer).
  intros i. pose proof (Nat.mod_upper_bound i 10) as Hi. split.
  - change 0%Q with (Num.binary64 0). apply binary64_monotone.
    unfold Qle. cbn. lia.
  - apply Qle_lt_trans with (Num.binary64 (9 # 10)); [| reflexivity].
    apply binary64_monotone. unfold Qle. cbn. lia.
Defined.

(** ** The stat animator *)




Section Animation.

Variable rnd : Q -> Q.
Hypothesis rnd_monotone : forall x y : Q, (x <= y)%Q -> (rnd x <= rnd y)%Q.
Hypothesis rnd_half_integer :
  forall m : Z, Z.abs m <= 2 ^ 52 -> (rnd (m # 2) == m # 2)%Q.

Variables start end_ duration : Q.
Variable startTime : Z.
Hypothesis duration_positive : (0 < duration)%Q.

Local Abbreviation progress := (Animator.progress rnd duration startTime).
Local Abbreviation current := (Animator.current rnd start end_ duration startTime).
Local Abbreviation update := (Animator.update rnd start end_ duration startTime).
Local Abbreviation frames := (Animator.frames rnd start end_ duration startTime).
Local Abbreviation elapsed := (Animator.elapsed startTime).
Local Abbreviation running := (Animator.running rnd duration startTime).






Lemma progress_le_one now : (progress now <= 1)%Q.
Proof. unfold Animator.progress. apply Q.le_min_r. Qed.









Lemma frames_running (clock : list Z) :
  Forall (fun now => running now = true) clock ->
  frames clock = map (fun now => Num.toFixed1 (current now)) clock.
Proof.
  induction 1 as [| now clock R _ IH]; [reflexivity |].
  cbn [Animator.frames map]. unfold Animator.update.
  rewrite R. now rewrite IH.
Qed.



End Animation.



(** ** Dates and the chart *)

Import Dates.

Lemma era_bounds (doe : Z) :
  0 <= doe < 146097 ->
  let yoe := (doe - doe / 1460 + doe / 36524 - doe / 146096) / 365 in
  let doy := doe - (365 * yoe + yoe / 4 - yoe / 100) in
  0 <= yoe <= 399 /\ 0 <= doy <= 365.
Proof.
  intros H yoe doy. subst yoe doy. Z.div_mod_to_equations. lia.
Qed.

Lemma days_from_civil_linear (y m d : Z) :
  days_from_civil y m d = days_from_civil y m 1 + d - 1.
Proof. unfold days_from_civil. lia. Qed.

(** The calendar date of a day number names that day number. *)
Lemma civil_roundtrip (z : Z) :
  days_from_civil (year (civil_from_days z)) (month (civil_from_days z))
    (date (civil_from_days z)) = z.
Proof.
  unfold civil_from_days. cbv zeta.
  set (era := (z + 719468) / 146097).
  set (doe := z + 719468 - era * 146097).
  assert (Hdoe : 0 <= doe < 146097) by (subst doe era; Z.div_mod_to_equations; lia).
  destruct (era_bounds doe Hdoe) as [Hyoe Hdoy]. cbv zeta in Hyoe, Hdoy.
  set (yoe := (doe - doe / 1460 + doe / 36524 - doe / 146096) / 365) in *.
  set (doy := doe - (365 * yoe + yoe / 4 - yoe / 100)) in *.
  set (mp := (5 * doy + 2) / 153).
  assert (Hmp : 0 <= mp <= 11) by (subst mp; Z.div_mod_to_equations; lia).
  cbn [year month date]. unfold days_from_civil.
  set (m := if mp <? 10 then mp + 2 else mp - 10).
  assert (Hm : (m <=? 1) = negb (mp <? 10) /\ (if 1 <? m then m - 2 else m + 10) = mp).
  { subst m. destruct (Z.ltb_spec mp 10); cbn [negb].
    - split; [apply Z.leb_gt; lia |]. destruct (Z.ltb_spec 1 (mp + 2)); lia.
    - split; [apply Z.leb_le; lia |]. destruct (Z.ltb_spec 1 (mp - 10)); lia. }
  destruct Hm as [Hm1 Hm2]. rewrite Hm1, Hm2.
  assert (Hy : (if negb (mp <? 10)
                then yoe + era * 400 + (if negb (mp <? 10) then 1 else 0) - 1
                else yoe + era * 400 + (if negb (mp <? 10) then 1 else 0))
               = yoe + era * 400)
    by (destruct (mp <? 10); cbn [negb]; lia).
  rewrite Hy.
  assert (He : (yoe + era * 400) / 400 = era)
    by (symmetry; apply (Z.div_unique _ 400 era yoe); lia).
  rewrite He.
  replace (yoe + era * 400 - era * 400) with yoe by lia.
  subst doy doe. lia.
Qed.

Lemma Day_MakeDate (day t : Z) : Day (MakeDate day (TimeWithinDay t)) = day.
Proof.
  unfold Day, MakeDate, TimeWithinDay, msPerDay.
  Z.div_mod_to_equations. lia.
Qed.

(** Setting the day of the month [i] days back lands [i] days back,
    across the boundaries of months and years. *)
Lemma setDate_days_back (t i : Z) : Day (setDate t (getDate t - i)) = Day t - i.
Proof.
  unfold setDate, getDate, MakeDay. rewrite Day_MakeDate.
  pose proof (civil_roundtrip (Day t)) as R.
  rewrite days_from_civil_linear in R. lia.
Qed.

Lemma date_labels_from_length now n : length (Charts.date_labels_from now n) = n.
Proof. induction n as [| n IH]; cbn; [reflexivity | now rewrite IH]. Qed.

Lemma date_labels_from_nth now n i :
  (i < n)%nat ->
  nth_error (Charts.date_labels_from now n) i
  = Some (day_label (Day now - Z.of_nat (n - 1 - i))).
Proof.
  revert i. induction n as [| n IH]; intros i Hi; [lia |].
  cbn [Charts.date_labels_from]. destruct i as [| i]; cbn [nth_error].
  - unfold toLocaleDateString. rewrite setDate_days_back.
    do 2 f_equal. lia.
  - rewrite IH by lia. do 3 f_equal. lia.
Qed.

Lemma days_of_range_cases (timeRange : string) :
  Charts.days_of_range "7d" = 7%nat
  /\ Charts.days_of_range "30d" = 30%nat
  /\ Charts.days_of_range "90d" = 90%nat
  /\ Charts.days_of_range "1y" = 365%nat
  /\ (timeRange <> "7d"%string -> timeRange <> "30d"%string ->
      timeRange <> "90d"%string -> timeRange <> "1y"%string ->
      Charts.days_of_range timeRange = 30%nat).
Proof.
  repeat split. intros H1 H2 H3 H4. unfold Charts.days_of_range.
  apply String.eqb_neq in H1, H2, H3, H4. now rewrite H1, H2, H3, H4.
Qed.

(** C5: the range tokens 7d, 30d, 90d and 1y stand for 7, 30, 90 and 365
    points and every other token for 30.  On a chart that exists,
    [updateChartData] replaces labels and values by new arrays of exactly
    that many entries each and redraws once; the i-th label names the day
    that lies (points - 1 - i) days before the current day, so the labels
    run one per day from the oldest to the current day; the i-th value is
    computed from the i-th draw that follows. *)
Theorem C5_range_points_and_labels (rnd : Q -> Q) (timeRange : string)
    (chart : Charts.Chart) (now : Z) (random : nat -> Q) (k : nat) :
  let days := Charts.days_of_range timeRange in
  (Charts.days_of_range "7d" = 7%nat
   /\ Charts.days_of_range "30d" = 30%nat
   /\ Charts.days_of_range "90d" = 90%nat
   /\ Charts.days_of_range "1y" = 365%nat
   /\ (timeRange <> "7d"%string -> timeRange <> "30d"%string ->
       timeRange <> "90d"%string -> timeRange <> "1y"%string -> days = 30%nat))
  /\ exists chart',
       Charts.updateChartData rnd timeRange (Some chart) now random k
       = (Some chart', (k + days)%nat)
       /\ length (Charts.labels chart') = days
       /\ length (Charts.data chart') = days
       /\ Charts.redraws chart' = S (Charts.redraws chart)
       /\ (forall i, (i < days)%nat ->
             nth_error (Charts.labels chart') i
             = Some (day_label (Day now - Z.of_nat (days - 1 - i)))
             /\ nth_error (Charts.data chart') i
                = Some (Charts.temperature rnd (random (k + i)%nat)))
       /\ (0 < days)%nat
       /\ nth_error (Charts.labels chart') (days - 1) = Some (toLocaleDateString now).
Proof.
  intros days. split; [apply days_of_range_cases |].
  unfold Charts.updateChartData. fold days.
  destruct (generateTemperatureData_values rnd days random k) as [Hv Hk].
  destruct (Charts.generateTemperatureData rnd days random k) as [d k'].
  cbn [fst snd] in Hv, Hk. subst d k'.
  assert (Hpos : (0 < days)%nat).
  { subst days. unfold Charts.days_of_range.
    repeat (destruct (String.eqb _ _); [lia |]). lia. }
  eexists. split; [reflexivity |]. cbn [Charts.labels Charts.data Charts.redraws].
  unfold Charts.generateDateLabels.
  split; [apply date_labels_from_length |].
  split; [now rewrite length_map, length_seq |].
  split; [reflexivity |].
  split; [| split; [exact Hpos |]].
  - intros i Hi. split; [now apply date_labels_from_nth |].
    rewrite nth_error_map, nth_error_seq.
    destruct (Nat.ltb_spec i days); [reflexivity | lia].
  - rewrite date_labels_from_nth by lia. unfold toLocaleDateString.
    do 2 f_equal. lia.
Qed.

(** Without a chart nothing is generated and no draw is taken. *)
Lemma updateChartData_no_chart rnd timeRange now random k :
  Charts.updateChartData rnd timeRange None now random k = (None, k).
Proof. reflexivity. Qed.

Lemma C5_range_points_and_labels_witness :
  let now := 20759 * msPerDay + 47700000 in
  exists chart',
    fst (Charts.updateChartData Num.binary64 "7d"
           (Some {| Charts.labels := []; Charts.data := []; Charts.redraws := 0 |})
           now (fun _ => 1 # 2) 0) = Some chart'
    /\ Charts.labels chart'
       = ["Oct 27"; "Oct 28"; "Oct 29"; "Oct 30"; "Oct 31"; "Nov 1"; "Nov 2"]%string
    /\ length (Charts.data chart') = 7%nat
    /\ nth_error (Charts.labels chart') 6 = Some "Nov 2"%string.
Proof.
  intros now.
  destruct (C5_range_points_and_labels Num.binary64 "7d"
              {| Charts.labels := []; Charts.data := []; Charts.redraws := 0 |}
              now (fun _ => 1 # 2) 0%nat)
    as (_ & chart' & E & Hl & Hd & _ & Hnth & _ & Hlast).
  exists chart'. rewrite E. split; [reflexivity |].
  split; [| split; [exact Hd | exact Hlast]].
  vm_compute in E. inversion E. reflexivity.
Defined.

(** * Further properties of the page flows *)

Import Flows.

Lemma fire_effects cb w : trace (fire cb w) = trace w ++ callback_effects cb.
Proof.
  destruct cb as [id | | | m ty]; cbn [fire callback_effects].
  - destruct (attached id w); cbn; now rewrite app_nil_r.
  - apply fire_LocationAdded_trace.
  - cbn. now rewrite <- app_assoc.
  - apply showToast_trace.
Qed.

Lemma fire_all_effects l w :
  trace (fire_all l w) = trace w ++ flat_map (fun e => callback_effects (snd e)) l.
Proof.
  revert w. induction l as [| e l IH]; intros w.
  - cbn. now rewrite app_nil_r.
  - rewrite fire_all_cons, IH, fire_effects. cbn [flat_map]. now rewrite app_assoc.
Qed.

(** The effects of a stretch of time are those of the callbacks that have
    become due, in queue order. *)
Lemma advance_effects dt w :
  trace (advance dt w)
  = trace w ++ flat_map (fun e => callback_effects (snd e))
                 (List.filter (fun e => fst e <=? now w + dt) (timers w)).
Proof. unfold advance. now rewrite fire_all_effects. Qed.

Lemma callback_effects_no_fetch cb :
  Forall (fun e => is_fetch e = false) (callback_effects cb).
Proof. destruct cb; repeat constructor. Qed.

Lemma step_effects_no_fetch e w :
  exists ext, trace (step e w) = trace w ++ ext
              /\ Forall (fun x => is_fetch x = false) ext.
Proof.
  destruct e as [m ty | id | dt | f | | action | ]; cbn [step].
  - eexists. split; [apply showToast_trace | repeat constructor].
  - exists []. split; [cbn; now rewrite app_nil_r | constructor].
  - eexists. split; [apply advance_effects |].
    apply Forall_flat_map. apply List.Forall_forall. intros x _.
    apply callback_effects_no_fetch.
  - exists []. split; [cbn; now rewrite app_nil_r | constructor].
  - unfold Modal.handleLocationSubmission. destruct (_ || _).
    + eexists. split; [apply showToast_trace | repeat constructor].
    + eexists. split; [apply submitLocationData_trace | repeat constructor].
  - unfold handleActionCardClick. repeat (destruct (String.eqb action _)).
    + exists []. split; [cbn; now rewrite app_nil_r | constructor].
    + eexists. split; [reflexivity | repeat constructor].
    + eexists. split; [reflexivity | repeat constructor].
    + eexists. split; [reflexivity | repeat constructor].
    + eexists. split; [reflexivity | repeat constructor].
  - eexists. split; [reflexivity | repeat constructor].
Qed.

(** X1: whatever the user does on the page and however much time passes,
    no flow of the page calls [fetch]: the trace grows by effects none of
    which is a request.  The location submission and the actions are
    simulated with timers only. *)
Theorem page_flows_never_fetch (events : list Event) (w : World) :
  exists ext, trace (run events w) = trace w ++ ext
              /\ Forall (fun x => is_fetch x = false) ext.
Proof.
  revert w. induction events as [| e events IH]; intros w.
  - exists []. split; [cbn; now rewrite app_nil_r | constructor].
  - cbn [run fold_left]. destruct (step_effects_no_fetch e w) as (ext1 & E1 & F1).
    destruct (IH (step e w)) as (ext2 & E2 & F2).
    exists (ext1 ++ ext2). split.
    + unfold run in E2. rewrite E2, E1. now rewrite app_assoc.
    + apply Forall_app. now split.
Qed.

(** ** The toast queue as a whole *)

Lemma shown_messages_app tr1 tr2 :
  shown_messages (tr1 ++ tr2) = shown_messages tr1 ++ shown_messages tr2.
Proof. unfold shown_messages. apply flat_map_app. Qed.

Lemma filter_messages_sublist (p : Toast -> bool) (l : list Toast) :
  map toast_message (List.filter p l) `sublist_of` map toast_message l.
Proof.
  induction l as [| t l IH]; cbn [List.filter map]; [constructor |].
  destruct (p t); cbn [map]; [now apply sublist_skip | now apply sublist_cons].
Qed.

Lemma showToast_screened m ty w :
  screened w -> screened (showToast m ty w).
Proof.
  unfold screened, on_screen. intros H.
  rewrite showToast_trace, shown_messages_app.
  cbn [showToast setTimeout toast_container]. rewrite map_app.
  now apply sublist_app.
Qed.

Lemma fire_screened cb w : screened w -> screened (fire cb w).
Proof.
  intros H. destruct cb as [id | | | m ty]; cbn [fire].
  - destruct (attached id w); [| exact H].
    unfold screened, on_screen, remove_toast in *.
    cbn [set_container toast_container trace].
    etransitivity; [apply filter_messages_sublist | exact H].
  - apply (showToast_screened "Location added successfully!" "success") in H.
    unfold screened, on_screen in *.
    cbn [loadDashboardData reset_form hideModal emit setTimeout toast_container trace].
    rewrite !shown_messages_app. cbn [shown_messages flat_map].
    rewrite !app_nil_r. exact H.
  - unfold screened, on_screen in *. cbn [emit toast_container trace].
    rewrite !shown_messages_app. cbn [shown_messages flat_map].
    rewrite !app_nil_r. exact H.
  - now apply showToast_screened.
Qed.

Lemma fire_all_screened l w : screened w -> screened (fire_all l w).
Proof.
  revert w. induction l as [| e l IH]; intros w H; [exact H |].
  rewrite fire_all_cons. apply IH. now apply fire_screened.
Qed.

Lemma step_screened e w : screened w -> screened (step e w).
Proof.
  intros H. destruct e as [m ty | id | dt | f | | action | ]; cbn [step].
  - now apply showToast_screened.
  - unfold screened, on_screen, dismiss, remove_toast in *.
    cbn [set_container toast_container trace].
    etransitivity; [apply filter_messages_sublist | exact H].
  - unfold advance. apply fire_all_screened. exact H.
  - exact H.
  - unfold Modal.handleLocationSubmission, Modal.submitLocationData.
    destruct (_ || _); now apply showToast_screened.
  - unfold handleActionCardClick, startAnalysis, generateReport, createEmergencyPlan.
    repeat (destruct (String.eqb action _)); try exact H;
      try (now apply showToast_screened).
    unfold screened, on_screen in *. cbn [emit toast_container trace].
    rewrite shown_messages_app. cbn [shown_messages flat_map].
    rewrite app_nil_r. exact H.
  - unfold showDemo. now apply showToast_screened.
Qed.

(** X2: at every moment the messages on screen, top to bottom, are a
    sub-sequence of the messages shown so far, oldest first: a toast is on
    screen only if [showToast] put it there, and removals and dismissals
    never reorder the toasts that stay. *)
Theorem toasts_on_screen_in_order_shown (events : list Event) (defaults : Form) :
  on_screen (run events (initial defaults))
    `sublist_of` shown_messages (trace (run events (initial defaults))).
Proof.
  assert (G : forall w, screened w -> screened (run events w)).
  { induction events as [| e events IH]; intros w H; [exact H |].
    cbn [run fold_left]. apply IH. now apply step_screened. }
  apply G. constructor.
Qed.

(** X3: the queue has no bound and does not merge: toasts shown one after
    the other all stay on screen, each as an entry of its own, behind the
    ones already there, duplicates included. *)
Theorem toasts_accumulate (toasts : list (string * string)) (w : World) :
  on_screen (run (map (fun t => Shown (fst t) (snd t)) toasts) w)
  = on_screen w ++ map fst toasts.
Proof.
  revert w. induction toasts as [| [m ty] toasts IH]; intros w.
  - cbn. now rewrite app_nil_r.
  - cbn [map run fold_left step fst snd]. unfold run in IH. rewrite IH.
    unfold on_screen. cbn [showToast setTimeout toast_container].
    rewrite map_app. cbn [map toast_message]. now rewrite <- app_assoc.
Qed.

Lemma grows_refl w : grows w w.
Proof. unfold grows. repeat split; auto. Qed.

Lemma grows_trans w1 w2 w3 : grows w1 w2 -> grows w2 w3 -> grows w1 w3.
Proof.
  intros (N1 & C1 & T1 & A1) (N2 & C2 & T2 & A2). unfold grows.
  split; [lia |]. split; [congruence |]. split; [auto |].
  intros id H. destruct (A2 id H) as [H2 | (R2 & d & Hd & Hle)].
  - destruct (A1 id H2) as [H1 | (R1 & d & Hd & Hle)]; [now left | right].
    split; [lia |]. exists d. split; [now apply T2 | exact Hle].
  - right. split; [lia |]. exists d. split; [exact Hd | lia].
Qed.

Lemma showToast_grows m ty w : grows w (showToast m ty w).
Proof.
  unfold grows. split; [cbn; lia |]. split; [reflexivity |]. split.
  - intros x H. rewrite showToast_timers. apply In_enqueue. now right.
  - intros id H. unfold attached in H. cbn [showToast setTimeout toast_container] in H.
    rewrite attached_app in H. cbn [existsb toast_id] in H.
    rewrite orb_false_r in H. apply orb_true_iff in H. destruct H as [H | H]; [now left |].
    apply Nat.eqb_eq in H. subst id. right. split; [cbn; lia |].
    exists (now w + 5000). split; [| lia].
    rewrite showToast_timers. apply In_enqueue. now left.
Qed.

Lemma setTimeout_grows cb delay w : grows w (setTimeout cb delay w).
Proof.
  unfold grows. split; [cbn; lia |]. split; [reflexivity |]. split.
  - intros x H. cbn [setTimeout timers]. apply In_enqueue. now right.
  - intros id H. now left.
Qed.

Lemma still_grows w w' :
  next_id w' = next_id w -> now w' = now w -> timers w' = timers w ->
  toast_container w' = toast_container w -> grows w w'.
Proof.
  intros N C T K. unfold grows. split; [lia |]. split; [exact C |]. split.
  - intros x H. now rewrite T.
  - intros id H. left. unfold attached in *. now rewrite <- K.
Qed.

Lemma announce_later_grows m1 t1 m2 t2 delay w :
  grows w (setTimeout (Announce m2 t2) delay (showToast m1 t1 w)).
Proof. eapply grows_trans; [apply showToast_grows | apply setTimeout_grows]. Qed.

(** A callback other than the removal of a toast only adds. *)
Lemma fire_grows cb w : (forall id, cb <> RemoveToast id) -> grows w (fire cb w).
Proof.
  intros Hcb. destruct cb as [id | | | m ty]; cbn [fire].
  - now destruct (Hcb id).
  - eapply grows_trans; [apply (showToast_grows "Location added successfully!" "success") |].
    eapply grows_trans; [| apply setTimeout_grows].
    now apply still_grows.
  - now apply still_grows.
  - apply showToast_grows.
Qed.

Lemma grows_covered_upto l w w' : grows w w' -> covered_upto l w -> covered_upto l w'.
Proof.
  intros (N & C & T & A) Hc id H. destruct (A id H) as [H0 | (R & d & Hd & Hle)].
  - destruct (Hc id H0) as (Hid & [(d & Hd & Hle) | (d & Hd)]).
    + split; [lia |]. left. exists d. split; [now apply T | lia].
    + split; [lia |]. right. now exists d.
  - split; [lia |]. left. exists d. split; [exact Hd | lia].
Qed.

Lemma covered_upto_nil w : covered_upto [] w <-> covered w.
Proof.
  unfold covered_upto, covered. split; intros H id Ha; destruct (H id Ha) as (Hid & Hc).
  - split; [exact Hid |]. destruct Hc as [Hc | (d & [])]. exact Hc.
  - split; [exact Hid | now left].
Qed.

Lemma fire_covered_upto e l w :
  covered_upto (e :: l) w -> covered_upto l (fire (snd e) w).
Proof.
  intros Hc. destruct e as [d0 cb]. cbn [snd].
  destruct cb as [id0 | | | m ty].
  - assert (G : forall id, attached id (fire (RemoveToast id0) w) = true ->
                           id <> id0 /\ attached id w = true).
    { intros id H. cbn [fire] in H. destruct (Nat.eq_dec id id0) as [-> | Hne].
      - pose proof (fire_RemoveToast_detaches id0 w) as D. cbn [fire] in D. congruence.
      - split; [exact Hne |]. destruct (attached id0 w); [| exact H].
        now rewrite attached_remove_other in H by congruence. }
    intros id H. destruct (G id H) as [Hne Ha].
    destruct (fire_RemoveToast_frame id0 w) as (_ & _ & _ & Ht).
    pose proof (fire_now (RemoveToast id0) w) as Hn.
    pose proof (fire_next_id (RemoveToast id0) w) as Hx.
    destruct (Hc id Ha) as (Hid & [(d & Hd & Hle) | (d & [Hd | Hd])]).
    + split; [lia |]. left. exists d. rewrite Ht, Hn. now split.
    + inversion Hd. congruence.
    + split; [lia |]. right. now exists d.
  - apply (grows_covered_upto l w); [apply fire_grows; discriminate |].
    intros id H. destruct (Hc id H) as (Hid & [Hl | (d & [Hd | Hd])]);
      [split; [exact Hid | now left] | discriminate Hd | split; [exact Hid | right; now exists d]].
  - apply (grows_covered_upto l w); [apply fire_grows; discriminate |].
    intros id H. destruct (Hc id H) as (Hid & [Hl | (d & [Hd | Hd])]);
      [split; [exact Hid | now left] | discriminate Hd | split; [exact Hid | right; now exists d]].
  - apply (grows_covered_upto l w); [apply fire_grows; discriminate |].
    intros id H. destruct (Hc id H) as (Hid & [Hl | (d & [Hd | Hd])]);
      [split; [exact Hid | now left] | discriminate Hd | split; [exact Hid | right; now exists d]].
Qed.

Lemma fire_all_covered l w : covered_upto l w -> covered (fire_all l w).
Proof.
  revert w. induction l as [| e l IH]; intros w H.
  - now apply covered_upto_nil.
  - rewrite fire_all_cons. apply IH. now apply fire_covered_upto.
Qed.

Lemma advance_covered dt w : 0 <= dt -> covered w -> covered (advance dt w).
Proof.
  intros Hdt Hc. unfold advance. apply fire_all_covered.
  intros id H. cbn [set_clock attached toast_container] in H.
  destruct (Hc id H) as (Hid & d & Hd & Hle).
  split; [exact Hid |]. cbn [set_clock timers now].
  destruct (Z.leb_spec d (now w + dt)) as [Hdue | Hnot].
  - right. exists d. apply filter_In. split; [exact Hd |]. cbn [fst]. now apply Z.leb_le.
  - left. exists d. split; [| lia]. apply filter_In. split; [exact Hd |].
    cbn [fst]. apply negb_true_iff. now apply Z.leb_gt.
Qed.

Lemma grows_covered w w' : grows w w' -> covered w -> covered w'.
Proof.
  intros G Hc. apply covered_upto_nil. apply (grows_covered_upto [] w w' G).
  now apply covered_upto_nil.
Qed.

Lemma step_covered e w : covered w -> covered (step e w).
Proof.
  intros Hc. destruct e as [m ty | id0 | dt | f | | action | ]; cbn [step].
  - apply (grows_covered w); [apply showToast_grows | exact Hc].
  - intros id H. unfold dismiss in H.
    destruct (Nat.eq_dec id0 id) as [-> | Hne].
    + now rewrite attached_remove_same in H.
    + rewrite attached_remove_other in H by exact Hne. exact (Hc id H).
  - apply advance_covered; [lia | exact Hc].
  - exact Hc.
  - apply (grows_covered w); [| exact Hc].
    unfold Modal.handleLocationSubmission, Modal.submitLocationData.
    destruct (_ || _); [apply showToast_grows |].
    eapply grows_trans; [apply showToast_grows | apply setTimeout_grows].
  - apply (grows_covered w); [| exact Hc].
    unfold handleActionCardClick, startAnalysis, generateReport, createEmergencyPlan.
    repeat (destruct (String.eqb action _));
      try apply announce_later_grows; now apply still_grows.
  - apply (grows_covered w); [apply announce_later_grows | exact Hc].
Qed.

Lemma run_covered events w : covered w -> covered (run events w).
Proof.
  revert w. induction events as [| e events IH]; intros w H; [exact H |].
  cbn [run fold_left]. apply IH. now apply step_covered.
Qed.

(** X4: no toast outlives 5000 ms.  On any page reached from the initial
    one, every toast that is on screen is off the screen once 5000 ms or
    more have passed, whatever callbacks run in the meantime. *)
Theorem every_toast_expires (events : list Event) (defaults : Form) (id : nat) (dt : Z) :
  5000 <= dt ->
  attached id (run events (initial defaults)) = true ->
  attached id (advance dt (run events (initial defaults))) = false.
Proof.
  intros Hdt Ha. set (w := run events (initial defaults)) in *.
  assert (Hc : covered w).
  { apply run_covered. intros i H. discriminate H. }
  destruct (Hc id Ha) as (Hid & d & Hd & Hle).
  unfold advance. apply (fire_all_removes id _ _ d); [exact Hid |].
  apply filter_In. split; [exact Hd |]. cbn [fst]. apply Z.leb_le. lia.
Qed.

Lemma every_toast_expires_witness :
  attached 1 (advance 5000 (run [ActionCard "report"; Elapsed 2000] (initial empty_form)))
  = false.
Proof.
  apply (every_toast_expires [ActionCard "report"; Elapsed 2000] empty_form 1 5000).
  - lia.
  - reflexivity.
Defined.

(** ** The simulated flows in time *)

Lemma silent_effects (P : Z * Callback -> bool) q :
  (forall e, In e q -> callback_effects (snd e) = []) ->
  flat_map (fun e => callback_effects (snd e)) (List.filter P q) = [].
Proof.
  intros H. induction q as [| u q IH]; [reflexivity |].
  cbn [List.filter]. destruct (P u); cbn [flat_map].
  - rewrite (H u) by now left. apply IH. intros e He. apply H. now right.
  - apply IH. intros e He. apply H. now right.
Qed.

Lemma enqueue_effects (P : Z * Callback -> bool) t q :
  (forall e, In e q -> callback_effects (snd e) = []) ->
  flat_map (fun e => callback_effects (snd e)) (List.filter P (enqueue t q))
  = if P t then callback_effects (snd t) else [].
Proof.
  intros H. induction q as [| u q IH]; cbn [enqueue].
  - cbn [List.filter]. destruct (P t); cbn; now rewrite ?app_nil_r.
  - assert (Hq : forall e, In e q -> callback_effects (snd e) = [])
      by (intros e He; apply H; now right).
    assert (Hu : callback_effects (snd u) = []) by (apply H; now left).
    destruct (fst u <=? fst t).
    + cbn [List.filter]. destruct (P u); cbn [flat_map]; rewrite ?Hu; apply IH, Hq.
    + cbn [List.filter]. destruct (P t), (P u); cbn [flat_map];
        rewrite ?Hu, ?(silent_effects P q Hq), ?app_nil_r; reflexivity.
Qed.

Lemma quiet_enqueue_removal d id q :
  (forall e, In e q -> callback_effects (snd e) = []) ->
  forall e, In e (enqueue (d, RemoveToast id) q) -> callback_effects (snd e) = [].
Proof. intros H e He. apply In_enqueue in He. destruct He as [-> | He]; auto. Qed.

(** A flow that shows a toast now and announces the outcome later. *)
Lemma announce_later_effects m1 t1 m2 t2 delay dt w :
  quiet w ->
  trace (advance dt (setTimeout (Announce m2 t2) delay (showToast m1 t1 w)))
  = trace w ++ ToastShown m1 t1 :: (if delay <=? dt then [ToastShown m2 t2] else []).
Proof.
  intros Hq. rewrite advance_effects.
  change (timers (setTimeout (Announce m2 t2) delay (showToast m1 t1 w)))
    with (enqueue (now w + delay, Announce m2 t2)
            (enqueue (now w + 5000, RemoveToast (next_id w)) (timers w))).
  change (now (setTimeout (Announce m2 t2) delay (showToast m1 t1 w))) with (now w).
  change (trace (setTimeout (Announce m2 t2) delay (showToast m1 t1 w)))
    with (trace w ++ [ToastShown m1 t1]).
  rewrite enqueue_effects by (apply quiet_enqueue_removal; exact Hq).
  cbn [fst snd callback_effects]. rewrite <- app_assoc. cbn [app]. do 2 f_equal.
  destruct (Z.leb_spec (now w + delay) (now w + dt)), (Z.leb_spec delay dt);
    try reflexivity; lia.
Qed.

(** X5: an action card or the demo button starts a simulated flow: an
    info toast at once and, once the delay of the flow has passed (3000,
    2000, 2500 and 1500 ms), one success toast, with no other outcome.
    The card 'location' opens the modal and shows nothing; any other
    action is logged and shows nothing. *)
Theorem simulated_actions_in_time (action : string) (dt : Z) (w : World) :
  quiet w ->
  trace (advance dt (handleActionCardClick "analysis" w))
  = trace w ++ ToastShown "Starting climate analysis..." "info"
      :: (if 3000 <=? dt then [ToastShown "Analysis completed!" "success"] else [])
  /\ trace (advance dt (handleActionCardClick "report" w))
     = trace w ++ ToastShown "Generating climate report..." "info"
         :: (if 2000 <=? dt then [ToastShown "Report generated successfully!" "success"] else [])
  /\ trace (advance dt (handleActionCardClick "emergency" w))
     = trace w ++ ToastShown "Creating emergency plan..." "info"
         :: (if 2500 <=? dt then [ToastShown "Emergency plan created!" "success"] else [])
  /\ trace (advance dt (showDemo w))
     = trace w ++ ToastShown "Loading demo..." "info"
         :: (if 1500 <=? dt then [ToastShown "Demo ready!" "success"] else [])
  /\ (trace (advance dt (handleActionCardClick "location" w)) = trace w
      /\ location_modal (handleActionCardClick "location" w)
         = {| visibility := "visible"; opacity := "1" |})
  /\ (action <> "location"%string -> action <> "analysis"%string ->
      action <> "report"%string -> action <> "emergency"%string ->
      trace (advance dt (handleActionCardClick action w))
      = trace w ++ [ConsoleLog ("Unknown action: " +:+ action)]).
Proof.
  intros Hq.
  split; [apply (announce_later_effects _ _ _ _ 3000); exact Hq |].
  split; [apply (announce_later_effects _ _ _ _ 2000); exact Hq |].
  split; [apply (announce_later_effects _ _ _ _ 2500); exact Hq |].
  split; [apply (announce_later_effects _ _ _ _ 1500); exact Hq |].
  split.
  - split; [| reflexivity]. rewrite advance_effects.
    change (timers (handleActionCardClick "location" w)) with (timers w).
    rewrite silent_effects by exact Hq. apply app_nil_r.
  - intros H1 H2 H3 H4. apply String.eqb_neq in H1, H2, H3, H4.
    unfold handleActionCardClick. rewrite H1, H2, H3, H4.
    set (w1 := emit _ w).
    rewrite advance_effects. change (timers w1) with (timers w).
    rewrite silent_effects by exact Hq. now rewrite app_nil_r.
Qed.

Lemma initial_quiet defaults : quiet (initial defaults).
Proof. intros e []. Qed.

Lemma simulated_actions_in_time_witness :
  trace (advance 2999 (handleActionCardClick "analysis" (initial empty_form)))
  = [ToastShown "Starting climate analysis..." "info"]
  /\ trace (advance 3000 (handleActionCardClick "analysis" (initial empty_form)))
     = [ToastShown "Starting climate analysis..." "info";
        ToastShown "Analysis completed!" "success"]
  /\ trace (advance 9000 (handleActionCardClick "flood" (initial empty_form)))
     = [ConsoleLog "Unknown action: flood"].
Proof.
  split; [| split].
  - exact (proj1 (simulated_actions_in_time "analysis" 2999 (initial empty_form)
                    (initial_quiet empty_form))).
  - exact (proj1 (simulated_actions_in_time "analysis" 3000 (initial empty_form)
                    (initial_quiet empty_form))).
  - refine (proj2 (proj2 (proj2 (proj2 (proj2
              (simulated_actions_in_time "flood" 9000 (initial empty_form)
                 (initial_quiet empty_form)))))) _ _ _ _); discriminate.
Defined.









(** * Further properties of the API client *)

Import Api.

(** X7: every call of [request] ends in one of two ways and calls
    [fetch] exactly once.  Either it returns a body, and then the call to
    [fetch] is its only effect: nothing is logged and no toast is shown.
    Or it returns an error, and then that same error is logged once and
    one toast 'API request failed' is shown.  A body and a toast never
    come together, and a body that does not parse counts as a failure. *)
Theorem request_succeeds_or_fails (api : ClimateAPI) (endpoint : string)
    (options : gmap string Value) (fetch : string -> gmap string Value -> Settled)
    (w : World) :
  match snd (request api endpoint options fetch w) with
  | inr body =>
      trace (fst (request api endpoint options fetch w))
      = trace w ++ [Fetch (baseURL api +:+ endpoint) (config api options)]
      /\ toast_container (fst (request api endpoint options fetch w)) = toast_container w
      /\ timers (fst (request api endpoint options fetch w)) = timers w
      /\ exists r, fetch (baseURL api +:+ endpoint)%string (config api options) = Fulfilled r
                   /\ ok r = true /\ json r = inr body
  | inl e =>
      request_failed api endpoint options e w (request api endpoint options fetch w)
      /\ (fetch (baseURL api +:+ endpoint)%string (config api options) = Rejected e
          \/ exists r, fetch (baseURL api +:+ endpoint)%string (config api options) = Fulfilled r
                       /\ (ok r = false \/ json r = inl e))
  end.
Proof.
  unfold request.
  destruct (fetch _ _) as [e | r] eqn:F.
  - cbn [snd failed]. split; [apply failed_after_fetch | now left].
  - destruct (ok r) eqn:Hok; cbn [negb].
    + destruct (json r) as [e | body] eqn:J; cbn [snd failed fst].
      * split; [apply failed_after_fetch |]. right. exists r. auto.
      * repeat split. exists r. auto.
    + cbn [snd failed]. split; [apply failed_after_fetch |]. right. exists r. auto.
Qed.

Lemma default_headers_content_type api :
  default_headers api !! "Content-Type" = Some "application/json"%string.
Proof.
  unfold default_headers, authorization.
  destruct (token api) as [t |]; [destruct (Num.truthy_string t) |].
  - rewrite lookup_union_r by (now rewrite lookup_singleton_ne).
    apply lookup_singleton_eq.
  - rewrite lookup_union_r by apply lookup_empty. apply lookup_singleton_eq.
  - rewrite lookup_union_r by apply lookup_empty. apply lookup_singleton_eq.
Qed.

(** X8: the three backend operations.  Each calls [fetch] first, on
    the base path followed by its own path; the two reads pass a
    configuration that holds the default headers and nothing else (no
    method, no body), the analysis passes the method POST, the body and
    the default headers; and the headers of all three carry
    Content-Type: application/json, with or without a token. *)
Theorem backend_operations_requests (api : ClimateAPI) (lat lng body analysisId : string)
    (fetch : string -> gmap string Value -> Settled) (w : World) :
  (exists rest,
      trace (fst (getClimateData api lat lng fetch w))
      = trace w ++ Fetch (baseURL api +:+ "/climate/data?lat=" +:+ lat +:+ "&lng=" +:+ lng)
                     {[ "headers" := Obj (default_headers api) ]} :: rest)
  /\ (exists rest,
        trace (fst (getRecommendations api analysisId fetch w))
        = trace w ++ Fetch (baseURL api +:+ "/recommendations/" +:+ analysisId)
                       {[ "headers" := Obj (default_headers api) ]} :: rest)
  /\ (exists cfg rest,
        trace (fst (Api.startAnalysis api body fetch w))
        = trace w ++ Fetch (baseURL api +:+ "/analyze") cfg :: rest
        /\ cfg !! "method" = Some (Str "POST")
        /\ cfg !! "body" = Some (Str body)
        /\ cfg !! "headers" = Some (Obj (default_headers api))
        /\ dom cfg = {[ "method"; "body"; "headers" ]})
  /\ default_headers api !! "Content-Type" = Some "application/json"%string.
Proof.
  split; [| split; [| split; [| apply default_headers_content_type]]].
  - destruct (request_fetches api ("/climate/data?lat=" +:+ lat +:+ "&lng=" +:+ lng) ∅ fetch w)
      as [rest E].
    exists rest. unfold getClimateData. rewrite E. unfold config.
    now rewrite (left_id_L ∅ (∪)).
  - destruct (request_fetches api ("/recommendations/" +:+ analysisId) ∅ fetch w) as [rest E].
    exists rest. unfold getRecommendations. rewrite E. unfold config.
    now rewrite (left_id_L ∅ (∪)).
  - destruct (request_fetches api "/analyze"
                (<["method" := Str "POST"]> (<["body" := Str body]> ∅)) fetch w) as [rest E].
    eexists. exists rest. split; [exact E |]. unfold config.
    split; [apply lookup_union_Some_l; apply lookup_insert_eq |].
    split; [apply lookup_union_Some_l; rewrite lookup_insert_ne by discriminate;
            apply lookup_insert_eq |].
    split.
    + rewrite lookup_union_r; [apply lookup_singleton_eq |].
      rewrite !lookup_insert_ne by discriminate. apply lookup_empty.
    + rewrite dom_union_L, !dom_insert_L, dom_empty_L, dom_singleton_L. set_solver.
Qed.

(** * The search overlay *)







Lemma search_step_open e s :
  Search.is_open (Search.step e s) = Search.decide_open e (Search.is_open s)
  /\ (Search.overlay s = Search.visible \/ Search.overlay s = Search.hidden
      \/ Search.overlay s = Search.overlay Search.initial ->
      Search.overlay (Search.step e s) = Search.visible
      \/ Search.overlay (Search.step e s) = Search.hidden
      \/ Search.overlay (Search.step e s) = Search.overlay Search.initial).
Proof.
  destruct e as [| | key | value]; cbn [Search.step Search.decide_open].
  - split; [reflexivity | intros _; now left].
  - split; [reflexivity | intros _; right; now left].
  - unfold Search.is_open. destruct (String.eqb key "Escape"); cbn [andb].
    + destruct (String.eqb (Page.visibility (Search.overlay s)) "visible") eqn:V.
      * split; [reflexivity | intros _; right; now left].
      * split; [exact V | auto].
    + split; [reflexivity | auto].
  - destruct (2 <? _)%nat; split; auto.
Qed.

(** X10: the overlay is a machine of two states.  Whether it is open
    after a run of events is decided by the last click on the search
    button, click on the close button or Escape key among them: open
    after the first, closed after the other two, and as before when there
    is none; typing and other keys change nothing.  From the initial page
    on, visibility and opacity go together: visible with 1, hidden with
    0, or both unset. *)
Theorem search_overlay_two_states (events : list Search.Event) (s : Search.State) :
  Search.is_open (Search.run events s)
  = fold_left (fun open e => Search.decide_open e open) events (Search.is_open s)
  /\ (Search.overlay (Search.run events Search.initial) = Search.visible
      \/ Search.overlay (Search.run events Search.initial) = Search.hidden
      \/ Search.overlay (Search.run events Search.initial) = Search.overlay Search.initial).
Proof.
  split.
  - revert s. induction events as [| e events IH]; intros s; [reflexivity |].
    cbn [Search.run fold_left]. unfold Search.run in IH. rewrite IH.
    now rewrite (proj1 (search_step_open e s)).
  - assert (G : forall s0,
               (Search.overlay s0 = Search.visible \/ Search.overlay s0 = Search.hidden
                \/ Search.overlay s0 = Search.overlay Search.initial) ->
               Search.overlay (Search.run events s0) = Search.visible
               \/ Search.overlay (Search.run events s0) = Search.hidden
               \/ Search.overlay (Search.run events s0) = Search.overlay Search.initial).
    { induction events as [| e events IH]; intros s0 H; [exact H |].
      cbn [Search.run fold_left]. apply IH. now apply (proj2 (search_step_open e s0)). }
    apply G. right. now right.
Qed.

(** * Navigation *)

Import Navigation.

Ltac class_sets :=
  cbn [classList add_class remove_class];
  rewrite ?elem_of_union, ?elem_of_difference, ?elem_of_singleton;
  intuition congruence.

(** X11: after a click on a navigation link that link is the active one
    and no other is: among the links, 'active' is in the class list of
    the clicked link only.  Every link keeps its target and its other
    classes, the links keep their number and order, and the target of the
    clicked link is the one section navigated to. *)
Theorem click_marks_one_link_active (i : nat) (this : Link) (n : Nav) :
  navLinks n !! i = Some this ->
  length (navLinks (clickLink i n)) = length (navLinks n)
  /\ (forall j before, navLinks n !! j = Some before ->
        exists after,
          navLinks (clickLink i n) !! j = Some after
          /\ href after = href before
          /\ ("active" ∈ classList after <-> j = i)
          /\ (forall c, c <> "active"%string -> c ∈ classList after <-> c ∈ classList before))
  /\ console (clickLink i n)
     = console n ++ [Page.ConsoleLog ("Navigating to: " +:+ href this)]
  /\ navMenu (clickLink i n) = navMenu n.
Proof.
  intros Hi. unfold clickLink. rewrite Hi.
  cbn [navigateToSection navLinks console navMenu].
  split; [now rewrite length_alter, length_fmap |].
  split; [| split; reflexivity].
  intros j before Hj.
  destruct (decide (i = j)) as [<- | Hne].
  - exists (add_class "active" (remove_class "active" before)).
    split; [| split; [reflexivity | split]].
    + rewrite list_lookup_alter_eq, list_lookup_fmap, Hj. reflexivity.
    + class_sets.
    + intros c Hc. class_sets.
  - exists (remove_class "active" before).
    split; [| split; [reflexivity | split]].
    + rewrite list_lookup_alter_ne by exact Hne.
      rewrite list_lookup_fmap, Hj. reflexivity.
    + class_sets.
    + intros c Hc. class_sets.
Qed.

Lemma click_marks_one_link_active_witness :
  let home := {| href := "#home"; classList := {[ "nav-link"; "active" ]} |} in
  let maps := {| href := "#maps"; classList := {[ "nav-link" ]} |} in
  let n := {| navLinks := [home; maps]; navMenu := ∅; console := [] |} in
  classList <$> navLinks (clickLink 1 n) = [{[ "nav-link" ]}; {[ "nav-link"; "active" ]}]
  /\ console (clickLink 1 n) = [Page.ConsoleLog "Navigating to: #maps"].
Proof.
  intros home maps n.
  destruct (click_marks_one_link_active 1 maps n eq_refl) as (_ & _ & Hlog & _).
  split; [| exact Hlog].
  vm_compute. reflexivity.
Defined.

Lemma toggle_toggle (c : string) (s : gset string) : toggle c (toggle c s) = s.
Proof.
  unfold toggle. destruct (decide (c ∈ s)) as [H | H].
  - rewrite decide_False
      by (rewrite elem_of_difference, elem_of_singleton; intuition congruence).
    apply set_eq. intros x. destruct (decide (x = c)) as [-> | Hx];
      rewrite elem_of_union, elem_of_difference, elem_of_singleton; intuition congruence.
  - rewrite decide_True
      by (rewrite elem_of_union, elem_of_singleton; intuition congruence).
    apply set_eq. intros x. destruct (decide (x = c)) as [-> | Hx];
      rewrite elem_of_difference, elem_of_union, elem_of_singleton; intuition congruence.
Qed.

Lemma toggle_spec (c : string) (s : gset string) (x : string) :
  x ∈ toggle c s <-> (if decide (x = c) then x ∉ s else x ∈ s).
Proof.
  unfold toggle. destruct (decide (c ∈ s)), (decide (x = c));
    rewrite ?elem_of_union, ?elem_of_difference, ?elem_of_singleton; subst;
    intuition congruence.
Qed.

(** X12: the mobile menu.  A click on the toggle makes the menu active
    if it was not and inactive if it was, and touches no other class of
    the menu; two clicks bring the menu back, so that after any number of
    clicks the menu is as at first when the number is even and toggled
    once when it is odd.  The links are never touched. *)
Theorem mobile_menu_toggles (clicks : nat) (n : Nav) :
  navMenu (Nat.iter clicks toggleMobileMenu n)
  = (if Nat.even clicks then navMenu n else toggle "active" (navMenu n))
  /\ ("active" ∈ navMenu (toggleMobileMenu n) <-> "active" ∉ navMenu n)
  /\ (forall c, c <> "active"%string ->
        c ∈ navMenu (toggleMobileMenu n) <-> c ∈ navMenu n)
  /\ navLinks (Nat.iter clicks toggleMobileMenu n) = navLinks n.
Proof.
  split; [| split; [| split]].
  - induction clicks as [| k IH]; [reflexivity |].
    rewrite Nat.even_succ, <- Nat.negb_even.
    change (Nat.iter (S k) toggleMobileMenu n)
      with (toggleMobileMenu (Nat.iter k toggleMobileMenu n)).
    cbn [toggleMobileMenu navMenu]. rewrite IH.
    destruct (Nat.even k); cbn [negb]; [reflexivity | apply toggle_toggle].
  - cbn [toggleMobileMenu navMenu]. rewrite toggle_spec.
    now rewrite decide_True by reflexivity.
  - intros c Hc. cbn [toggleMobileMenu navMenu]. rewrite toggle_spec.
    now rewrite decide_False by exact Hc.
  - induction clicks as [| k IH]; [reflexivity |].
    change (Nat.iter (S k) toggleMobileMenu n)
      with (toggleMobileMenu (Nat.iter k toggleMobileMenu n)).
    cbn [toggleMobileMenu navLinks]. exact IH.
Qed.

(** * The stat numbers *)

Section StatNumbers.

Variable rnd : Q -> Q.
Hypothesis rnd_monotone : forall x y : Q, (x <= y)%Q -> (rnd x <= rnd y)%Q.
Hypothesis rnd_half_integer :
  forall m : Z, Z.abs m <= 2 ^ 52 -> (rnd (m # 2) == m # 2)%Q.


End StatNumbers.


(** * The chart from its creation on *)

Lemma last_map {A B : Type} (f : A -> B) (l : list A) :
  last (map f l) = option_map f (last l).
Proof.
  induction l as [| x [| y l] IH]; [reflexivity | reflexivity |].
  exact IH.
Qed.

Lemma last_cons_cons {A : Type} (x y : A) (l : list A) :
  last (x :: y :: l) = last (y :: l).
Proof. reflexivity. Qed.

Lemma last_in_total (changes : list (string * Z)) (timeRange : string) (now : Z) :
  last changes = Some (timeRange, now) ->
  (Charts.days_of_range timeRange <= Dashboard.total_days changes)%nat.
Proof.
  induction changes as [| x [| y l] IH]; intros H; [discriminate | |].
  - injection H as ->. cbn. lia.
  - rewrite last_cons_cons in H. specialize (IH H).
    change (Dashboard.total_days (x :: y :: l))
      with (Charts.days_of_range (fst x) + Dashboard.total_days (y :: l))%nat.
    lia.
Qed.

Lemma selectRanges_chart rnd changes chart random k :
  exists chart',
    Dashboard.selectRanges rnd changes (Some chart) random k
    = (Some chart', (k + Dashboard.total_days changes)%nat)
    /\ Charts.redraws chart' = (Charts.redraws chart + length changes)%nat
    /\ match last changes with
       | None => chart' = chart
       | Some (timeRange, now) =>
           let days := Charts.days_of_range timeRange in
           Charts.labels chart' = Charts.generateDateLabels days now
           /\ Charts.data chart'
              = map (fun i => Charts.temperature rnd
                                (random (k + Dashboard.total_days changes - days + i)%nat))
                  (seq 0 days)
       end.
Proof.
  revert chart k. induction changes as [| [timeRange now] rest IH]; intros chart k.
  - exists chart. cbn. rewrite !Nat.add_0_r. auto.
  - cbn [Dashboard.selectRanges]. unfold Charts.updateChartData.
    destruct (generateTemperatureData_values rnd (Charts.days_of_range timeRange) random k)
      as [Hv Hk].
    destruct (Charts.generateTemperatureData rnd (Charts.days_of_range timeRange) random k)
      as [d k'].
    cbn [fst snd] in Hv, Hk. subst d k'.
    match goal with
    | |- context [Dashboard.selectRanges rnd rest (Some ?c) random ?k0] =>
        destruct (IH c k0) as (chart' & E & R & L)
    end.
    exists chart'. rewrite E.
    assert (T : Dashboard.total_days ((timeRange, now) :: rest)
                = (Charts.days_of_range timeRange + Dashboard.total_days rest)%nat)
      by reflexivity.
    rewrite T. split; [f_equal; lia |].
    cbn [Charts.redraws length] in *. split; [lia |].
    destruct rest as [| change rest].
    + cbn [last] in *. subst chart'. cbn [Charts.labels Charts.data].
      split; [reflexivity |]. apply map_ext. intros i. do 2 f_equal.
      cbn. lia.
    + rewrite last_cons_cons.
      destruct (last (change :: rest)) as [[r t] |] eqn:El.
      2: { apply last_None in El. discriminate. }
      destruct L as [L1 L2]. split; [exact L1 |]. rewrite L2.
      pose proof (last_in_total _ _ _ El) as D.
      apply map_ext. intros i. do 2 f_equal. lia.
Qed.

(** X14: the chart from [initializeCharts] through any sequence of
    choices in the time selector.  With the canvas on the page the chart
    exists after every choice; it has been redrawn once per choice; labels
    and values are one per point of the range chosen last (30 before any
    choice), the labels those of the days up to the day of that choice;
    every value ever generated took a draw of its own, and the values in
    the chart are computed from the last draws taken, in order. *)
Theorem chart_follows_selector (rnd : Q -> Q) (now : Z) (random : nat -> Q) (k : nat)
    (changes : list (string * Z)) :
  let days := Dashboard.last_days changes in
  let taken := (k + 30 + Dashboard.total_days changes)%nat in
  exists chart,
    (let '(chart0, k0) := Dashboard.initializeCharts rnd true now random k in
     Dashboard.selectRanges rnd changes chart0 random k0)
    = (Some chart, taken)
    /\ Charts.redraws chart = length changes
    /\ Charts.labels chart
       = Charts.generateDateLabels days (default now (last (map snd changes)))
    /\ Charts.data chart
       = map (fun i => Charts.temperature rnd (random (taken - days + i)%nat))
           (seq 0 days)
    /\ length (Charts.labels chart) = days
    /\ length (Charts.data chart) = days.
Proof.
  intros days taken. unfold Dashboard.initializeCharts.
  destruct (generateTemperatureData_values rnd 30 random k) as [Hv Hk].
  destruct (Charts.generateTemperatureData rnd 30 random k) as [d k'].
  cbn [fst snd] in Hv, Hk. subst d k'.
  match goal with
  | |- context [Dashboard.selectRanges rnd changes (Some ?c) random ?k0] =>
      destruct (selectRanges_chart rnd changes c random k0) as (chart & E & R & L)
  end.
  exists chart. rewrite E. split; [reflexivity |]. split; [exact R |].
  assert (H : Charts.labels chart
              = Charts.generateDateLabels days (default now (last (map snd changes)))
              /\ Charts.data chart
                 = map (fun i => Charts.temperature rnd (random (taken - days + i)%nat))
                     (seq 0 days)).
  { subst days taken. unfold Dashboard.last_days. rewrite !last_map.
    destruct (last changes) as [[timeRange t] |] eqn:El;
      cbn [option_map fst snd default].
    - exact L.
    - subst chart. cbn [Charts.labels Charts.data]. split; [reflexivity |].
      apply last_None in El. rewrite El.
      apply map_ext. intros i. do 2 f_equal.
      change (Dashboard.total_days []) with 0%nat. lia. }
  destruct H as [H1 H2]. split; [exact H1 |]. split; [exact H2 |].
  rewrite H1, H2. unfold Charts.generateDateLabels.
  now rewrite date_labels_from_length, length_map, length_seq.
Qed.

(** X15: without the canvas there is no chart, and no choice in the time
    selector creates one or takes a draw. *)
Theorem no_canvas_no_chart (rnd : Q -> Q) (now : Z) (random : nat -> Q) (k : nat)
    (changes : list (string * Z)) :
  (let '(chart0, k0) := Dashboard.initializeCharts rnd false now random k in
   Dashboard.selectRanges rnd changes chart0 random k0)
  = (None, k).
Proof.
  cbn [Dashboard.initializeCharts].
  induction changes as [| [timeRange t] rest IH]; [reflexivity |].
  cbn [Dashboard.selectRanges]. rewrite updateChartData_no_chart. exact IH.
Qed.


(** * Labels of the time axis *)

Lemma civil_from_days_ranges (z : Z) :
  0 <= month (civil_from_days z) <= 11 /\ 1 <= date (civil_from_days z) <= 31.
Proof.
  unfold civil_from_days. cbv zeta.
  set (era := (z + 719468) / 146097).
  set (doe := z + 719468 - era * 146097).
  assert (Hdoe : 0 <= doe < 146097) by (subst doe era; Z.div_mod_to_equations; lia).
  destruct (era_bounds doe Hdoe) as [Hyoe Hdoy]. cbv zeta in Hyoe, Hdoy.
  set (yoe := (doe - doe / 1460 + doe / 36524 - doe / 146096) / 365) in *.
  set (doy := doe - (365 * yoe + yoe / 4 - yoe / 100)) in *.
  cbn [month date]. clearbody doy. clear -Hdoy.
  set (mp := (5 * doy + 2) / 153).
  assert (Hmp : 0 <= mp <= 11) by (subst mp; Z.div_mod_to_equations; lia).
  split.
  - destruct (Z.ltb_spec mp 10); lia.
  - subst mp. Z.div_mod_to_equations. lia.
Qed.

(** The same month and day a year or more apart are at least 365 days
    apart. *)
Lemma days_from_civil_year_gap (y1 y2 m d : Z) :
  y1 < y2 -> days_from_civil y1 m d + 365 <= days_from_civil y2 m d.
Proof.
  intros H. unfold days_from_civil. destruct (m <=? 1); Z.div_mod_to_equations; lia.
Qed.

Lemma month_short_label (m1 m2 : Z) (d1 d2 : string) :
  0 <= m1 <= 11 -> 0 <= m2 <= 11 ->
  (month_short m1 +:+ " " +:+ d1 = month_short m2 +:+ " " +:+ d2)%string ->
  m1 = m2 /\ d1 = d2.
Proof.
  intros H1 H2.
  assert (C : forall m, 0 <= m <= 11 ->
                m = 0 \/ m = 1 \/ m = 2 \/ m = 3 \/ m = 4 \/ m = 5 \/ m = 6 \/ m = 7
                \/ m = 8 \/ m = 9 \/ m = 10 \/ m = 11) by (intros; lia).
  destruct (C m1 H1) as [-> | [-> | [-> | [-> | [-> | [-> | [-> | [-> | [-> | [-> | [-> | ->]]]]]]]]]]];
  destruct (C m2 H2) as [-> | [-> | [-> | [-> | [-> | [-> | [-> | [-> | [-> | [-> | [-> | ->]]]]]]]]]]];
  intros E; cbv in E; split; congruence.
Qed.

(** Two days less than 365 days apart have different labels. *)
Lemma day_label_inj (z1 z2 : Z) :
  Z.abs (z1 - z2) < 365 -> day_label z1 = day_label z2 -> z1 = z2.
Proof.
  intros Hd E. unfold day_label in E. cbv zeta in E.
  destruct (civil_from_days_ranges z1) as [M1 _].
  destruct (civil_from_days_ranges z2) as [M2 _].
  apply month_short_label in E; [| assumption | assumption].
  destruct E as [Em Ed]. apply (inj pretty) in Ed.
  pose proof (civil_roundtrip z1) as R1. pose proof (civil_roundtrip z2) as R2.
  rewrite Em, Ed in R1.
  destruct (Z.lt_trichotomy (year (civil_from_days z1)) (year (civil_from_days z2)))
    as [L | [Ey | L]].
  - pose proof (days_from_civil_year_gap _ _ (month (civil_from_days z2))
                  (date (civil_from_days z2)) L). lia.
  - rewrite Ey in R1. congruence.
  - pose proof (days_from_civil_year_gap _ _ (month (civil_from_days z2))
                  (date (civil_from_days z2)) L). lia.
Qed.

Lemma date_labels_from_In (now : Z) (n : nat) (s : string) :
  In s (Charts.date_labels_from now n) ->
  exists j, (j < n)%nat /\ s = day_label (Day now - Z.of_nat j).
Proof.
  induction n as [| n IH]; cbn [Charts.date_labels_from In]; [tauto |].
  intros [<- | H].
  - exists n. split; [lia |]. unfold toLocaleDateString. now rewrite setDate_days_back.
  - destruct (IH H) as (j & Hj & ->). exists j. split; [lia | reflexivity].
Qed.

Lemma date_labels_from_S (now : Z) (n : nat) :
  Charts.date_labels_from now (S n)
  = day_label (Day now - Z.of_nat n) :: Charts.date_labels_from now n.
Proof.
  cbn [Charts.date_labels_from]. unfold toLocaleDateString.
  now rewrite setDate_days_back.
Qed.

Lemma date_labels_from_fresh (now : Z) (n : nat) :
  (n < 365)%nat ->
  ~ In (day_label (Day now - Z.of_nat n)) (Charts.date_labels_from now n).
Proof.
  intros H Hin. apply date_labels_from_In in Hin. destruct Hin as (j & Hj & E).
  apply day_label_inj in E; lia.
Qed.

(** X16: for up to 365 points, so for each of the ranges of the time
    selector, the labels that [generateDateLabels] produces are pairwise
    different: no two points of the chart carry the same label. *)
Theorem date_labels_distinct (days : nat) (now : Z) :
  (days <= 365)%nat -> List.NoDup (Charts.generateDateLabels days now).
Proof.
  unfold Charts.generateDateLabels. induction days as [| n IH]; intros H.
  - constructor.
  - rewrite date_labels_from_S. constructor.
    + apply date_labels_from_fresh. lia.
    + apply IH. lia.
Qed.

Lemma date_labels_distinct_witness :
  List.NoDup (Charts.generateDateLabels 7 (20759 * msPerDay + 47700000)).
Proof. apply date_labels_distinct. lia. Defined.


(** * What a frame shows *)






